(** * Non-maximum suppression of jtmmcv/ops/nms.py

    A shallow embedding of [NMSop.execute], [nms] and [batched_nms] from
    [3D-Perception/BEVFormer/jtmmcv/ops/nms.py], and the properties of the
    kept-index sequence they return.

    Numbers.  A float32 tensor entry is an exact rational ([Q]); rounding,
    infinities and NaN are outside the model.  Python integers are [Z],
    positions into arrays are [nat].

    Tensors.  A one-dimensional [jittor.Var] is a list.  A two-dimensional
    one is a [Var2]: its second dimension and its rows, so that a tensor of
    shape (0, 4) and the test [boxes.size(1) == 4] both have a meaning.

    Objects.  The configuration dictionary is a Python object that is passed
    by reference, copied and popped from; it lives in a [heap] and the
    functions that touch it run in the monad [M] (state and exceptions). *)

From Stdlib Require Import QArith Qminmax Lqa.
From stdpp Require Import base gmap strings list sorting.

Local Open Scope Z_scope.
Local Open Scope nat_scope.

(** ** Tensors *)

Record Var2 : Type := mkVar2 { size1 : nat; rows : list (list Q) }.

Definition size0 (x : Var2) : nat := length (rows x).

(** [x[inds]] for an index array, on a vector and on the rows of a matrix. *)
Definition gather {A} (d : A) (inds : list nat) (x : list A) : list A :=
  map (fun i => nth i x d) inds.

Definition gather_rows (inds : list nat) (x : Var2) : Var2 :=
  mkVar2 (size1 x) (gather [] inds (rows x)).

(** [jittor.nonzero(mask).squeeze(dim=1)], [mask.nonzero().view(-1)]: the
    positions of the true entries, ascending. *)
Definition nonzero (mask : list bool) : list nat :=
  filter (fun i => nth i mask false = true) (seq 0 (length mask)).

(** A float tensor read as a mask: an entry counts when it is not zero. *)
Definition as_mask (x : list Q) : list bool :=
  map (fun v => negb (Qeq_bool v 0)) x.

(** [x[mask]] for a boolean mask: the entries at the true positions. *)
Definition select {A} (d : A) (mask : list bool) (x : list A) : list A :=
  gather d (nonzero mask) x.

Definition select_rows (mask : list bool) (x : Var2) : Var2 :=
  gather_rows (nonzero mask) x.

(** [jittor.concat([x, s.reshape(-1, 1)], dim=1)]: one more column. *)
Definition concat_col (x : Var2) (s : list Q) : Var2 :=
  mkVar2 (S (size1 x)) (zip_with (fun r v => r ++ [v]) (rows x) s).

(** [x[:, k]] and [x[:, -1]]. *)
Definition column (k : nat) (x : Var2) : list Q :=
  map (fun r => nth k r 0%Q) (rows x).

Definition last_column (x : Var2) : list Q :=
  map (fun r => List.last r 0%Q) (rows x).

(** [x[inds] = vals], entry by entry and in order; [x[inds] = v]. *)
Definition assign {A} (inds : list nat) (vals : list A) (x : list A) : list A :=
  fold_left (fun acc iv => <[fst iv := snd iv]> acc) (zip inds vals) x.

Definition assign_const {A} (inds : list nat) (v : A) (x : list A) : list A :=
  fold_left (fun acc i => <[i := v]> acc) inds x.

(** [inds[:max_num]] behind the guard [max_num > 0]. *)
Definition truncate {A} (max_num : Z) (l : list A) : list A :=
  if (0 <? max_num)%Z then take (Z.to_nat max_num) l else l.

(** [boxes.max()], the largest entry; the value on a tensor with no entry
    is never used, since [offsets] is then empty. *)
Definition max_all (x : Var2) : Q :=
  match concat (rows x) with
  | [] => 0%Q
  | v :: vs => fold_left Qmax vs v
  end.

(** ** The library primitives

    [jittor.nms], [jittor.argsort] and [jittor.candidate] are functions of
    the tensor library, not of this repository. *)

Module Jittor.

(** Stable insertion into a list of positions ordered by descending key:
    a position goes in front of the first one whose key is not larger. *)
Fixpoint insert_desc (key : nat -> Q) (i : nat) (l : list nat) : list nat :=
  match l with
  | [] => [i]
  | j :: l' =>
      if Qle_bool (key j) (key i) then i :: j :: l'
      else j :: insert_desc key i l'
  end.

Definition sort_desc (key : nat -> Q) (l : list nat) : list nat :=
  foldr (insert_desc key) [] l.

(** Modelled from the spec: the index part of the library's descending
    sort; ties keep the input order (section 4.1, step 2: "equal scores
    keep relative input order"). *)
Definition argsort_desc (x : list Q) : list nat :=
  sort_desc (fun i => nth i x 0%Q) (seq 0 (length x)).

(** Overlap test of two rows (x1, y1, x2, y2, score).  The call site in
    [NMSop.execute] hands over the rows and the threshold only, so the
    width and height convention is the primitive's own: x2 - x1 + [px],
    with [px] fixed by the library (1 in jittor, the pixel-inclusive
    convention).  What is proved below holds for every [px], the
    agreement of the two paths of [batched_nms] for every [px] up to 1. *)
Section Overlap.

Variable px : Q.

Definition area (r : list Q) : Q :=
  ((nth 2 r 0 - nth 0 r 0 + px) * (nth 3 r 0 - nth 1 r 0 + px))%Q.

Definition inter_w (a b : list Q) : Q :=
  Qmax 0 (Qmin (nth 2 a 0) (nth 2 b 0) - Qmax (nth 0 a 0) (nth 0 b 0) + px)%Q.

Definition inter_h (a b : list Q) : Q :=
  Qmax 0 (Qmin (nth 3 a 0) (nth 3 b 0) - Qmax (nth 1 a 0) (nth 1 b 0) + px)%Q.

Definition inter (a b : list Q) : Q := (inter_h a b * inter_w a b)%Q.

Definition iou (a b : list Q) : Q :=
  (inter a b / (area a + area b - inter a b))%Q.

Definition fail_cond (thresh : Q) (a b : list Q) : bool :=
  negb (Qle_bool (iou a b) thresh).

End Overlap.

(** The candidate filter: walk the rows in order and select a row when
    the condition fails against none of the rows selected so far. *)
Definition select_next (fail : nat -> nat -> bool) (y : list nat) (i : nat)
    : list nat :=
  if existsb (fun j => fail j i) y then y else y ++ [i].

Definition candidate_loop (fail : nat -> nat -> bool)
    (todo y : list nat) : list nat :=
  fold_left (select_next fail) todo y.

Definition candidate (x : list (list Q))
    (fail : list Q -> list Q -> bool) : list nat :=
  candidate_loop (fun j i => fail (nth j x []) (nth i x []))
    (seq 0 (length x)) [].

(** Modelled from the spec: [jittor.nms(dets, thresh)], the greedy
    suppression of section 4.1, step 2: order the rows by descending
    score (column 4), pick the best remaining row, drop every row whose
    IoU with a picked row exceeds the threshold; the result is the picked
    rows' positions in [dets], best first. *)
Definition nms (px : Q) (dets : Var2) (thresh : Q) : list nat :=
  let order := argsort_desc (column 4 dets) in
  let sorted := gather [] order (rows dets) in
  let selected := candidate sorted (fail_cond px thresh) in
  gather 0 selected order.

(** Modelled from the spec: [jittor.nms(dets, thresh)] with the tie rule
    left open (section 4.1, step 2: "exact tie-break is an
    external-library contract, not independently specified here"): the
    same suppression, over the order in which [argsort], some descending
    sort of the scores, puts the rows.  [nms] is the instance with the
    stable sort. *)
Definition nms_by (argsort : list Q -> list nat) (px : Q) (dets : Var2)
    (thresh : Q) : list nat :=
  let order := argsort (column 4 dets) in
  let sorted := gather [] order (rows dets) in
  let selected := candidate sorted (fail_cond px thresh) in
  gather 0 selected order.

End Jittor.

(** ** Exceptions *)

Inductive exn : Type :=
| AssertionError
| TypeError.

Definition result (A : Type) : Type := exn + A.

Definition ret_r {A} (a : A) : result A := inr a.

Definition bind_r {A B} (m : result A) (k : A -> result B) : result B :=
  match m with
  | inl e => inl e
  | inr a => k a
  end.

(** ** Python values and the object store *)

(** The scalars a configuration dictionary holds. *)
Inductive pyval : Type :=
| PyBool (b : bool)
| PyInt (z : Z)
| PyFloat (q : Q).

Definition Qlt_bool (a b : Q) : bool := negb (Qle_bool b a).

(** [if v:] *)
Definition truthy (v : pyval) : bool :=
  match v with
  | PyBool b => b
  | PyInt z => negb (z =? 0)%Z
  | PyFloat q => negb (Qeq_bool q 0)
  end.

(** The numeric value of a scalar ([True] is 1, [False] is 0). *)
Definition to_float (v : pyval) : Q :=
  match v with
  | PyBool b => if b then 1%Q else 0%Q
  | PyInt z => inject_Z z
  | PyFloat q => q
  end.

(** A scalar used as a slice bound: a float is refused. *)
Definition to_index (v : pyval) : result Z :=
  match v with
  | PyBool b => inr (if b then 1%Z else 0%Z)
  | PyInt z => inr z
  | PyFloat _ => inl TypeError
  end.

Abbreviation dict := (gmap string pyval).

(** Objects are addressed by their position in the store; a new object is
    appended, so that references handed out earlier stay valid. *)
Definition loc : Type := nat.
Abbreviation heap := (list dict).

(** State and exceptions. *)
Definition M (A : Type) : Type := heap -> result A * heap.

Definition ret {A} (a : A) : M A := fun h => (inr a, h).

Definition bind {A B} (m : M A) (k : A -> M B) : M B :=
  fun h =>
    match m h with
    | (inl e, h') => (inl e, h')
    | (inr a, h') => k a h'
    end.

Definition lift {A} (r : result A) : M A := fun h => (r, h).

Declare Scope py_scope.
Delimit Scope py_scope with py.
Notation "'let*' x := m 'in' k" := (bind m (fun x => k))
  (at level 10, x name, m at level 100, k at level 200) : py_scope.

(** [d.copy()]: a new dictionary with the same entries. *)
Definition dict_copy (d : loc) : M loc :=
  fun h => (inr (length h), h ++ [default ∅ (h !! d)]).

(** [d.pop(key, dflt)]: the value under [key], which is removed from the
    dictionary [d] refers to, or [dflt] when the key is absent. *)
Definition dict_pop (d : loc) (key : string) (dflt : pyval) : M pyval :=
  fun h =>
    match h !! d with
    | Some m =>
        match m !! key with
        | Some v => (inr v, <[d := delete key m]> h)
        | None => (inr dflt, h)
        end
    | None => (inr dflt, h)
    end.

(** [jittor.unique(idxs)]: the distinct values, ascending. *)
Fixpoint insert_unique (z : Z) (l : list Z) : list Z :=
  match l with
  | [] => [z]
  | y :: l' =>
      if (z <? y)%Z then z :: y :: l'
      else if (z =? y)%Z then y :: l'
      else y :: insert_unique z l'
  end.

Definition unique (idxs : list Z) : list Z := foldr insert_unique [] idxs.

(** ** The operations of nms.py

    [jittor_nms] stands for the library's [jittor.nms(dets, thresh)]; what
    does not depend on how it suppresses is proved for every such function,
    the rest for the model [Jittor.nms px]. *)

Section Ops.

Variable jittor_nms : Var2 -> Q -> list nat.

(** [NMSop.execute].  The parameter [offset] is received and not used. *)
Definition NMSop_execute (bboxes : Var2) (scores : list Q)
    (iou_threshold : Q) (offset : Z) (score_threshold : Q) (max_num : Z)
    : list nat :=
  let is_filtering_by_score := Qlt_bool 0 score_threshold in
  let valid_mask := map (fun s => Qlt_bool score_threshold s) scores in
  let valid_inds := nonzero valid_mask in
  let bboxes' :=
    if is_filtering_by_score then select_rows valid_mask bboxes else bboxes in
  let scores' :=
    if is_filtering_by_score then select 0%Q valid_mask scores else scores in
  let dets := concat_col bboxes' scores' in
  let inds := jittor_nms dets iou_threshold in
  let inds := truncate max_num inds in
  if is_filtering_by_score then gather 0 inds valid_inds else inds.

(** [nms]: the three shape and range assertions, then the suppression and
    the gathering of the kept rows.  The conversion between numpy arrays
    and jittor variables changes no value and is left out. *)
Definition nms (boxes : Var2) (scores : list Q) (iou_threshold : Q)
    (offset : Z) (score_threshold : Q) (max_num : Z)
    : result (Var2 * list nat) :=
  if negb (size1 boxes =? 4) then inl AssertionError
  else if negb (size0 boxes =? length scores) then inl AssertionError
  else if negb ((offset =? 0)%Z || (offset =? 1)%Z) then inl AssertionError
  else
    let inds :=
      NMSop_execute boxes scores iou_threshold offset score_threshold max_num in
    let dets := concat_col (gather_rows inds boxes) (gather 0%Q inds scores) in
    inr (dets, inds).

(** The coordinates handed to the suppression: the boxes themselves, or
    each box moved by [group id * (max_coordinate + 1)]. *)
Definition boxes_for_nms (class_agnostic : bool) (boxes : Var2)
    (idxs : list Z) : Var2 :=
  if class_agnostic then boxes
  else
    let max_coordinate := max_all boxes in
    let offsets :=
      map (fun g => (inject_Z g * (max_coordinate + 1))%Q) idxs in
    mkVar2 (size1 boxes)
      (zip_with (fun r o => map (fun c => (c + o)%Q) r) (rows boxes) offsets).

(** One round of the loop over the group ids of the large-input path. *)
Definition group_step (b4nms : Var2) (scores : list Q)
    (idxs : list Z) (iou_thr : Q) (acc : list Q * list Q) (id : Z)
    : result (list Q * list Q) :=
  let '(total_mask, scores_after_nms) := acc in
  let mask := nonzero (map (fun g => (g =? id)%Z) idxs) in
  bind_r
    (nms (gather_rows mask b4nms) (gather 0%Q mask scores)
         iou_thr 0 0 (-1))
    (fun '(dets, keep) =>
       let kept := gather 0 keep mask in
       ret_r (assign_const kept 1%Q total_mask,
              assign kept (last_column dets) scores_after_nms)).

Definition group_loop (b4nms : Var2) (scores : list Q)
    (idxs : list Z) (iou_thr : Q) (ids : list Z) (acc : list Q * list Q)
    : result (list Q * list Q) :=
  fold_left
    (fun r id =>
       bind_r r (fun acc => group_step b4nms scores idxs iou_thr acc id))
    ids (inr acc).

(** The branch taken when [boxes_for_nms.shape[0] < split_thr]. *)
Definition small_path (boxes b4nms : Var2) (scores : list Q) (iou_thr : Q)
    : result (Var2 * list nat) :=
  bind_r (nms b4nms scores iou_thr 0 0 (-1))
    (fun '(dets, keep) =>
       let boxes := gather_rows keep boxes in
       let scores := column 4 dets in
       ret_r (concat_col boxes scores, keep)).

(** The other branch, after [max_num] has been read. *)
Definition large_path (boxes b4nms : Var2) (scores : list Q)
    (idxs : list Z) (iou_thr : Q) (max_num : pyval)
    : result (Var2 * list nat) :=
  let zeros := map (fun _ => 0%Q) scores in
  bind_r (group_loop b4nms scores idxs iou_thr (unique idxs) (zeros, zeros))
    (fun '(total_mask, scores_after_nms) =>
       let keep := nonzero (as_mask total_mask) in
       let unsorted := gather 0%Q keep scores_after_nms in
       let inds := Jittor.argsort_desc unsorted in
       let scores := gather 0%Q inds unsorted in
       let keep := gather 0 inds keep in
       let boxes := gather_rows keep boxes in
       if Qlt_bool 0 (to_float max_num) then
         bind_r (to_index max_num)
           (fun n =>
              let k := Z.to_nat n in
              ret_r (concat_col (mkVar2 (size1 boxes) (take k (rows boxes)))
                                (take k scores),
                     take k keep))
       else ret_r (concat_col boxes scores, keep)).

Local Open Scope py_scope.

(** [batched_nms]; [nms_cfg] is a reference to the caller's dictionary. *)
Definition batched_nms (boxes : Var2) (scores : list Q) (idxs : list Z)
    (nms_cfg : loc) (class_agnostic : bool) : M (Var2 * list nat) :=
  let* nms_cfg_ := dict_copy nms_cfg in
  let* class_agnostic := dict_pop nms_cfg_ "class_agnostic" (PyBool class_agnostic) in
  let b4nms := boxes_for_nms (truthy class_agnostic) boxes idxs in
  let* iou_thr := dict_pop nms_cfg_ "iou_thr" (PyInt 0) in
  let* split_thr := dict_pop nms_cfg_ "split_thr" (PyInt 10000) in
  if Qlt_bool (inject_Z (Z.of_nat (size0 b4nms))) (to_float split_thr) then
    lift (small_path boxes b4nms scores (to_float iou_thr))
  else
    let* max_num := dict_pop nms_cfg_ "max_num" (PyInt (-1)) in
    lift (large_path boxes b4nms scores idxs (to_float iou_thr) max_num).

End Ops.

Arguments NMSop_execute jittor_nms bboxes scores iou_threshold offset
  score_threshold max_num : simpl never.

(** ** Auxiliary definitions for the statements *)

(** A matrix whose rows all have [size1] entries. *)
Definition wf_Var2 (x : Var2) : Prop :=
  Forall (fun r => length r = size1 x) (rows x).

(** The inputs [nms] accepts: boxes of shape (N, 4), scores of shape (N,),
    and an offset of 0 or 1. *)
Definition valid_input (boxes : Var2) (scores : list Q) (offset : Z) : Prop :=
  size1 boxes = 4 /\ wf_Var2 boxes /\ size0 boxes = length scores /\
  (offset = 0 \/ offset = 1)%Z.

(** A sequence of floats that never increases. *)
Definition non_increasing (l : list Q) : Prop :=
  forall i j, i <= j -> j < length l -> (nth j l 0 <= nth i l 0)%Q.

(** The value [d.pop(key, dflt)] returns, read off the dictionary. *)
Definition cfg_get (m : dict) (key : string) (dflt : pyval) : pyval :=
  default dflt (m !! key).

(** [batched_nms] as a function of the dictionary's contents: what the
    monadic definition computes once the store is threaded through
    ([batched_nms_run] below). *)
Definition batched_nms_of (jittor_nms : Var2 -> Q -> list nat)
    (boxes : Var2) (scores : list Q) (idxs : list Z) (m : dict)
    (class_agnostic : bool) : result (Var2 * list nat) :=
  let ca := truthy (cfg_get m "class_agnostic" (PyBool class_agnostic)) in
  let b4nms := boxes_for_nms ca boxes idxs in
  let iou_thr := to_float (cfg_get m "iou_thr" (PyInt 0)) in
  let split_thr := cfg_get m "split_thr" (PyInt 10000) in
  if Qlt_bool (inject_Z (Z.of_nat (size0 b4nms))) (to_float split_thr) then
    small_path jittor_nms boxes b4nms scores iou_thr
  else
    large_path jittor_nms boxes b4nms scores idxs iou_thr
      (cfg_get m "max_num" (PyInt (-1))).

(** The kept-index sequence of a result, empty for an exception. *)
Definition kept {A} (r : result (A * list nat)) : list nat :=
  match r with
  | inr (_, keep) => keep
  | inl _ => []
  end.

(** The claim that an explicit [class_agnostic] argument prevails over the
    dictionary's entry, as a statement about [batched_nms]: with the key
    present, the call returns what it returns when the key is taken out of
    the dictionary and the argument alone decides ([px] is the width and
    height convention of the suppression primitive). *)
Definition parameter_overrides_config (px : Q) : Prop :=
  forall boxes scores idxs cfg (h : heap) (m : dict) v p,
    h !! cfg = Some m ->
    m !! "class_agnostic" = Some v ->
    (batched_nms (Jittor.nms px) boxes scores idxs cfg p h).1 =
    (batched_nms (Jittor.nms px) boxes scores idxs cfg p
       (<[cfg := delete "class_agnostic" m]> h)).1.

(** [i] may stand in front of [j] in a sequence ordered by descending
    [key]. *)
Definition by_key (key : nat -> Q) (i j : nat) : Prop := (key j <= key i)%Q.

(** The overlap test of [Jittor.nms] between the rows at two positions. *)
Definition pair_fail (px : Q) (x : list (list Q)) (thresh : Q) (j i : nat) : bool :=
  Jittor.fail_cond px thresh (nth j x []) (nth i x []).

(** Boxes none of whose coordinates is negative. *)
Definition non_negative (x : Var2) : Prop :=
  Forall (Forall (fun c => (0 <= c)%Q)) (rows x).

(** Position [i] carries the group id [g]. *)
Definition in_group (idxs : list Z) (g : Z) (i : nat) : Prop :=
  nth i (map (fun x => (x =? g)%Z) idxs) false = true.

Global Instance in_group_dec idxs g i : Decision (in_group idxs g i).
Proof. unfold in_group. apply _. Defined.

(** What the large-input path keeps of group [g]: the suppression over the
    group's boxes alone, as positions of the whole input. *)
Definition group_keeps (px : Q) (b4nms : Var2) (scores : list Q) (idxs : list Z)
    (thr : Q) (g : Z) : list nat :=
  let mask := nonzero (map (fun x => (x =? g)%Z) idxs) in
  gather 0
    (Jittor.nms px (concat_col (gather_rows mask b4nms) (gather 0%Q mask scores))
                thr)
    mask.

(** Position [i] is set in a float tensor used as a mask. *)
Definition marked (total_mask : list Q) (i : nat) : Prop :=
  nth i (as_mask total_mask) false = true.

(** The dictionary's [max_num], when present, can bound a slice. *)
Definition int_max_num (m : dict) : Prop :=
  exists n, to_index (cfg_get m "max_num" (PyInt (-1))) = inr n.

(** The claim that the two paths of [batched_nms] keep the same set: two
    calls on the same boxes, scores and group ids whose dictionaries differ
    in [split_thr] only, one above the number of boxes and one not above
    it, return the same indices up to order ([px] is the width and height
    convention of the suppression primitive). *)
Definition paths_agree (px : Q) : Prop :=
  forall boxes scores idxs (m : dict) p (s_small s_large : pyval)
         (h1 h2 : heap) c1 c2,
    valid_input boxes scores 0 ->
    length idxs = size0 boxes ->
    h1 !! c1 = Some (<["split_thr" := s_small]> m) ->
    h2 !! c2 = Some (<["split_thr" := s_large]> m) ->
    (inject_Z (Z.of_nat (size0 boxes)) < to_float s_small)%Q ->
    (to_float s_large <= inject_Z (Z.of_nat (size0 boxes)))%Q ->
    forall i,
      i ∈ kept (batched_nms (Jittor.nms px) boxes scores idxs c1 p h1).1 <->
      i ∈ kept (batched_nms (Jittor.nms px) boxes scores idxs c2 p h2).1.

(** The overlap of two boxes as the docstring of [nms] describes it:
    "boxes' width or height is (x2 - x1 + offset)". *)
Definition documented_iou (offset : Q) (a b : list Q) : Q :=
  let area := fun r : list Q =>
    ((nth 2 r 0 - nth 0 r 0 + offset) * (nth 3 r 0 - nth 1 r 0 + offset))%Q in
  let w :=
    Qmax 0 (Qmin (nth 2 a 0) (nth 2 b 0) - Qmax (nth 0 a 0) (nth 0 b 0) + offset)%Q in
  let h :=
    Qmax 0 (Qmin (nth 3 a 0) (nth 3 b 0) - Qmax (nth 1 a 0) (nth 1 b 0) + offset)%Q in
  (h * w / (area a + area b - h * w))%Q.

(** Position [i] gets past the score filter of [NMSop.execute]: there is no
    filter unless the threshold is positive, and then the score must exceed
    it. *)
Definition survivor (scores : list Q) (st : Q) (i : nat) : Prop :=
  i < length scores /\ ((0 < st)%Q -> (st < nth i scores 0)%Q).

(** The box at position [i]. *)
Definition box (boxes : Var2) (i : nat) : list Q := nth i (rows boxes) [].

(** Boxes with x1 <= x2 and y1 <= y2. *)
Definition proper_boxes (boxes : Var2) : Prop :=
  Forall (fun r => (nth 0 r 0 <= nth 2 r 0)%Q /\ (nth 1 r 0 <= nth 3 r 0)%Q)
         (rows boxes).

(** What a descending sort does, whatever its tie rule: it returns the
    positions 0 .. n - 1, in an order along which the keys never
    increase. *)
Definition descending (argsort : list Q -> list nat) : Prop :=
  forall x,
    argsort x ≡ₚ seq 0 (length x) /\
    StronglySorted (by_key (fun i => nth i x 0%Q)) (argsort x).

(** No two positions carry the same value. *)
Definition distinct (x : list Q) : Prop :=
  forall i j, i < length x -> j < length x ->
    (nth i x 0 == nth j x 0)%Q -> i = j.

(** [c] is a whole number: it equals its floor. *)
Definition is_integer (c : Q) : Prop :=
  (c == inject_Z (Qnum c / Z.pos (Qden c)))%Q.

(** The inputs on which lines 125 to 127 of [batched_nms] compute without
    rounding in single precision, for boxes without negative coordinates:
    the coordinates are integers, and [max_coordinate + 1], every offset
    [id * (max_coordinate + 1)] and every moved coordinate are integers of
    magnitude at most 2^24. *)
Definition exact_offsets (boxes : Var2) (idxs : list Z) : Prop :=
  Forall (Forall is_integer) (rows boxes) /\
  Forall (fun g => (inject_Z (Z.abs g + 1) * (max_all boxes + 1)
                    <= inject_Z (2 ^ 24))%Q) idxs.

(** What the suppression [jittor_nms] keeps of group [g] when it is run
    over the boxes of that group alone, as positions of the whole input. *)
Definition group_keeps_by (jittor_nms : Var2 -> Q -> list nat)
    (b4nms : Var2) (scores : list Q) (idxs : list Z) (thr : Q) (g : Z)
    : list nat :=
  let mask := nonzero (map (fun x => (x =? g)%Z) idxs) in
  gather 0
    (jittor_nms (concat_col (gather_rows mask b4nms) (gather 0%Q mask scores))
                thr)
    mask.

(** * Threading the store *)

Lemma dict_pop_private (h : heap) (m : dict) key dflt :
  dict_pop (length h) key dflt (h ++ [m]) =
  (inr (cfg_get m key dflt), h ++ [delete key m]).
Proof.
  unfold dict_pop, cfg_get.
  rewrite lookup_app_r by lia. rewrite Nat.sub_diag. simpl.
  destruct (m !! key) as [v|] eqn:E; simpl.
  - f_equal. rewrite insert_app_r_alt by lia. rewrite Nat.sub_diag. reflexivity.
  - rewrite delete_id by done. reflexivity.
Qed.

Lemma cfg_get_delete_ne (m : dict) k k' dflt :
  k <> k' -> cfg_get (delete k m) k' dflt = cfg_get m k' dflt.
Proof. intros H. unfold cfg_get. rewrite lookup_delete_ne by done. reflexivity. Qed.

Lemma batched_nms_run jn boxes scores idxs cfg p (h : heap) :
  exists priv,
    batched_nms jn boxes scores idxs cfg p h =
    (batched_nms_of jn boxes scores idxs (default ∅ (h !! cfg)) p, h ++ [priv]).
Proof.
  unfold batched_nms, batched_nms_of, bind, dict_copy, lift.
  set (m := default ∅ (h !! cfg)).
  rewrite dict_pop_private.
  rewrite dict_pop_private.
  rewrite dict_pop_private.
  rewrite !cfg_get_delete_ne by done.
  destruct (Qlt_bool _ _).
  - eexists. reflexivity.
  - rewrite dict_pop_private. rewrite !cfg_get_delete_ne by done.
    eexists. reflexivity.
Qed.

(** * The assertions of [nms] *)

Lemma nms_valid jn boxes scores thr offset st mn :
  valid_input boxes scores offset ->
  nms jn boxes scores thr offset st mn =
  inr (let inds := NMSop_execute jn boxes scores thr offset st mn in
       (concat_col (gather_rows inds boxes) (gather 0%Q inds scores), inds)).
Proof.
  intros (H4 & _ & Hn & Ho). unfold nms.
  rewrite H4, Hn, !Nat.eqb_refl. simpl.
  destruct Ho as [-> | ->]; reflexivity.
Qed.

(** C6.  A call of [nms] with boxes that do not have 4 columns, with boxes
    and scores of different leading dimension, or with an offset other than
    0 and 1, ends in the exception its assertions raise (the spec's
    InvalidArgument): there is no result, and the outcome is the same for
    every suppression primitive, which is therefore never consulted. *)
Theorem nms_rejects_invalid_input jn boxes scores thr offset st mn :
  size1 boxes <> 4 \/ size0 boxes <> length scores \/
  (offset <> 0 /\ offset <> 1)%Z ->
  nms jn boxes scores thr offset st mn = inl AssertionError.
Proof.
  intros H. unfold nms.
  destruct (size1 boxes =? 4) eqn:E4; [simpl | reflexivity].
  destruct (size0 boxes =? length scores) eqn:En; [simpl | reflexivity].
  destruct ((offset =? 0)%Z || (offset =? 1)%Z) eqn:Eo; [exfalso | reflexivity].
  apply Nat.eqb_eq in E4. apply Nat.eqb_eq in En.
  apply orb_true_iff in Eo. rewrite !Z.eqb_eq in Eo.
  destruct H as [H | [H | [H0 H1]]]; [done | done | ].
  destruct Eo; done.
Qed.

Lemma nms_rejects_invalid_input_witness :
  nms (Jittor.nms 1) (mkVar2 3 [[0; 0; 1]%Q]) [1%Q] (1 # 2) 0 0 (-1)
    = inl AssertionError /\
  nms (Jittor.nms 1) (mkVar2 4 [[0; 0; 1; 1]%Q]) [1%Q; 1%Q] (1 # 2) 0 0 (-1)
    = inl AssertionError /\
  nms (Jittor.nms 1) (mkVar2 4 [[0; 0; 1; 1]%Q]) [1%Q] (1 # 2) 2 0 (-1)
    = inl AssertionError.
Proof.
  split; [| split].
  - apply nms_rejects_invalid_input. left. simpl. lia.
  - apply nms_rejects_invalid_input. right. left. vm_compute. lia.
  - apply nms_rejects_invalid_input. right. right. lia.
Defined.

(** * The offset parameter *)

(** C7, on the code.  [NMSop.execute] never reads [offset]: for every input
    and every suppression primitive the kept sequence and the returned rows
    are the same for offset 0 and offset 1, so no input separates the two.
    At two boxes whose documented overlap is 1/3 for offset 0 and 1/2 for
    offset 1, and a threshold of 2/5, the documented suppression keeps both
    boxes for offset 0 and one for offset 1; the code keeps one for both. *)
Theorem nms_ignores_offset :
  (forall jn boxes scores thr st mn,
     NMSop_execute jn boxes scores thr 0 st mn =
     NMSop_execute jn boxes scores thr 1 st mn /\
     nms jn boxes scores thr 0 st mn = nms jn boxes scores thr 1 st mn) /\
  (let a := [0; 0; 2; 2]%Q in
   let b := [1; 0; 3; 2]%Q in
   let boxes := mkVar2 4 [a; b] in
   let scores := [9 # 10; 8 # 10]%Q in
   (documented_iou 0 a b <= 2 # 5)%Q /\
   (2 # 5 < documented_iou 1 a b)%Q /\
   kept (nms (Jittor.nms 1) boxes scores (2 # 5) 0 0 (-1)) = [0] /\
   kept (nms (Jittor.nms 1) boxes scores (2 # 5) 1 0 (-1)) = [0]).
Proof.
  split; [intros; split; reflexivity |].
  repeat split; try (vm_compute; reflexivity). vm_compute. discriminate.
Qed.

(** * The configuration dictionary *)

(** C10.  A call of [batched_nms] leaves the dictionary behind [nms_cfg] as
    it found it, and every other object of the store with it: the store
    after the call is the store before it followed by the private copy. *)
Theorem batched_nms_preserves_config jn boxes scores idxs cfg p
    (h : heap) (m : dict) :
  h !! cfg = Some m ->
  (batched_nms jn boxes scores idxs cfg p h).2 !! cfg = Some m /\
  take (length h) (batched_nms jn boxes scores idxs cfg p h).2 = h.
Proof.
  intros Hm.
  destruct (batched_nms_run jn boxes scores idxs cfg p h) as [priv ->].
  simpl. split.
  - rewrite lookup_app_l by (eapply lookup_lt_Some; eauto). exact Hm.
  - apply take_app_length.
Qed.

Lemma batched_nms_preserves_config_witness :
  let h : heap :=
    [{[ "class_agnostic" := PyBool true ]} ∪ {[ "max_num" := PyInt 1 ]}] in
  let boxes := mkVar2 4 [[0; 0; 10; 10]%Q; [0; 0; 10; 10]%Q] in
  (batched_nms (Jittor.nms 1) boxes [9 # 10; 8 # 10]%Q [0; 1]%Z 0 false h).2 !! 0
    = h !! 0 /\
  take 1 (batched_nms (Jittor.nms 1) boxes [9 # 10; 8 # 10]%Q [0; 1]%Z 0 false h).2
    = h.
Proof.
  intros h boxes.
  apply (batched_nms_preserves_config (Jittor.nms 1) boxes [9 # 10; 8 # 10]%Q
           [0; 1]%Z 0 false h).
  reflexivity.
Defined.

Lemma batched_nms_fst jn boxes scores idxs cfg p (h : heap) (m : dict) :
  h !! cfg = Some m ->
  (batched_nms jn boxes scores idxs cfg p h).1 =
  batched_nms_of jn boxes scores idxs m p.
Proof.
  intros Hm.
  destruct (batched_nms_run jn boxes scores idxs cfg p h) as [priv ->].
  rewrite Hm. reflexivity.
Qed.

Lemma batched_nms_of_class_agnostic jn boxes scores idxs (m : dict) v p :
  m !! "class_agnostic" = Some v ->
  batched_nms_of jn boxes scores idxs m p =
  batched_nms_of jn boxes scores idxs (delete "class_agnostic" m) (truthy v).
Proof.
  intros Hv. unfold batched_nms_of.
  unfold cfg_get. rewrite lookup_delete_eq, Hv.
  rewrite !lookup_delete_ne by done. reflexivity.
Qed.

(** C8, as the code has it.  When the dictionary has a [class_agnostic]
    entry, that entry decides whether suppression is class-agnostic and the
    explicit argument is not looked at: every argument gives the result
    that the entry's truth value gives as the argument of a call without
    the entry.  The argument is the default for an absent key only. *)
Theorem config_overrides_parameter jn boxes scores idxs cfg (h : heap)
    (m : dict) v :
  h !! cfg = Some m ->
  m !! "class_agnostic" = Some v ->
  forall p,
    (batched_nms jn boxes scores idxs cfg p h).1 =
    (batched_nms jn boxes scores idxs cfg (truthy v)
       (<[cfg := delete "class_agnostic" m]> h)).1 /\
    (batched_nms jn boxes scores idxs cfg p h).1 =
    (batched_nms jn boxes scores idxs cfg (negb p) h).1.
Proof.
  intros Hm Hv p.
  assert (Hlt : cfg < length h) by (eapply lookup_lt_Some; eauto).
  rewrite !(batched_nms_fst _ _ _ _ _ _ h m) by done.
  rewrite (batched_nms_fst _ _ _ _ _ _ _ (delete "class_agnostic" m))
    by (by apply list_lookup_insert_eq).
  split.
  - by apply batched_nms_of_class_agnostic.
  - rewrite !(batched_nms_of_class_agnostic _ _ _ _ m v) by done. reflexivity.
Qed.

Lemma config_overrides_parameter_witness :
  let h : heap := [{[ "class_agnostic" := PyBool true ]}] in
  let boxes := mkVar2 4 [[0; 0; 10; 10]%Q; [0; 0; 10; 10]%Q] in
  let scores := [9 # 10; 8 # 10]%Q in
  (batched_nms (Jittor.nms 1) boxes scores [0; 1]%Z 0 false h).1 =
  (batched_nms (Jittor.nms 1) boxes scores [0; 1]%Z 0 true
     (<[0 := delete "class_agnostic" {[ "class_agnostic" := PyBool true ]}]> h)).1 /\
  (batched_nms (Jittor.nms 1) boxes scores [0; 1]%Z 0 false h).1 =
  (batched_nms (Jittor.nms 1) boxes scores [0; 1]%Z 0 true h).1.
Proof.
  intros h boxes scores.
  apply (config_overrides_parameter (Jittor.nms 1) boxes scores [0; 1]%Z 0 h
           {[ "class_agnostic" := PyBool true ]} (PyBool true)).
  - reflexivity.
  - reflexivity.
Defined.

(** C8, as the spec words it, fails, whichever of the two conventions the
    primitive follows: two coinciding boxes of different groups, a
    dictionary that asks for class-agnostic suppression and an argument
    that asks for the opposite.  The dictionary prevails and one box is
    kept; the argument alone would keep both. *)
Lemma parameter_overrides_config_fails :
  ~ parameter_overrides_config 1 /\ ~ parameter_overrides_config 0.
Proof.
  split; intros H;
    specialize (H (mkVar2 4 [[0; 0; 10; 10]%Q; [0; 0; 10; 10]%Q])
                  [9 # 10; 8 # 10]%Q [0; 1]%Z 0
                  [{[ "class_agnostic" := PyBool true ]}]
                  {[ "class_agnostic" := PyBool true ]} (PyBool true) false
                  eq_refl eq_refl);
    vm_compute in H; discriminate H.
Qed.

Example class_agnostic_from_config :
  let boxes := mkVar2 4 [[0; 0; 10; 10]%Q; [0; 0; 10; 10]%Q] in
  kept (batched_nms (Jittor.nms 1) boxes [9 # 10; 8 # 10]%Q [0; 1]%Z 0 false
          [{[ "class_agnostic" := PyBool true ]}]).1 = [0] /\
  kept (batched_nms (Jittor.nms 1) boxes [9 # 10; 8 # 10]%Q [0; 1]%Z 0 false
          [∅]).1 = [0; 1].
Proof. split; vm_compute; reflexivity. Qed.

(** * Arrays *)

Lemma Qlt_bool_iff a b : Qlt_bool a b = true <-> (a < b)%Q.
Proof.
  unfold Qlt_bool. rewrite negb_true_iff.
  split.
  - intros H. apply Qnot_le_lt. intros Hle.
    apply Qle_bool_iff in Hle. congruence.
  - intros H. destruct (Qle_bool b a) eqn:E; [| reflexivity].
    apply Qle_bool_iff in E. exfalso. eapply Qlt_not_le; eauto.
Qed.

Lemma Qle_bool_false a b : Qle_bool a b = false <-> (b < a)%Q.
Proof.
  rewrite <- Qlt_bool_iff. unfold Qlt_bool.
  destruct (Qle_bool a b); simpl; split; congruence.
Qed.

Lemma length_gather {A} (d : A) inds x : length (gather d inds x) = length inds.
Proof. apply length_map. Qed.

Lemma nth_gather {A} (d : A) inds x k :
  k < length inds -> nth k (gather d inds x) d = nth (nth k inds 0) x d.
Proof.
  intros Hk. unfold gather.
  rewrite (nth_indep _ d (nth 0 x d)) by (by rewrite length_map).
  apply (map_nth (fun i => nth i x d)).
Qed.

Lemma elem_of_nonzero mask i :
  i ∈ nonzero mask <-> nth i mask false = true.
Proof.
  unfold nonzero. rewrite list_elem_of_filter, elem_of_seq.
  split; [tauto |]. intros H. split; [exact H |].
  split; [lia |]. simpl.
  destruct (decide (i < length mask)) as [Hlt | Hge]; [exact Hlt |].
  rewrite nth_overflow in H by lia. discriminate.
Qed.

Lemma nonzero_lt mask i : i ∈ nonzero mask -> i < length mask.
Proof.
  unfold nonzero. rewrite list_elem_of_filter, elem_of_seq. lia.
Qed.

Lemma NoDup_nonzero mask : NoDup (nonzero mask).
Proof. apply NoDup_filter, NoDup_seq. Qed.

Lemma nth_elem_of (l : list nat) k : k < length l -> nth k l 0 ∈ l.
Proof. intros H. apply list_elem_of_In, nth_In, H. Qed.

Lemma elem_of_nonzero_map {A} (f : A -> bool) (x : list A) (d : A) i :
  i ∈ nonzero (map f x) <-> i < length x /\ f (nth i x d) = true.
Proof.
  split.
  - intros H. pose proof (nonzero_lt _ _ H) as Hlt. rewrite length_map in Hlt.
    split; [exact Hlt |]. apply elem_of_nonzero in H.
    rewrite (nth_indep _ false (f d)) in H by (by rewrite length_map).
    by rewrite map_nth in H.
  - intros [Hlt H]. apply elem_of_nonzero.
    rewrite (nth_indep _ false (f d)) by (by rewrite length_map).
    by rewrite map_nth.
Qed.

Lemma rows_concat_col_gather inds boxes scores :
  rows (concat_col (gather_rows inds boxes) (gather 0%Q inds scores)) =
  map (fun i => nth i (rows boxes) [] ++ [nth i scores 0%Q]) inds.
Proof.
  unfold concat_col, gather_rows, gather. simpl.
  induction inds as [| i inds IH]; simpl; [reflexivity |]. by rewrite IH.
Qed.

Lemma wf_row boxes i :
  wf_Var2 boxes -> i < size0 boxes ->
  length (nth i (rows boxes) []) = size1 boxes.
Proof.
  intros Hwf Hi. unfold wf_Var2 in Hwf. rewrite Forall_forall in Hwf.
  apply Hwf. apply list_elem_of_In, nth_In, Hi.
Qed.

Lemma nth_last_col (r : list Q) v : nth (length r) (r ++ [v]) 0%Q = v.
Proof. rewrite app_nth2 by lia. by rewrite Nat.sub_diag. Qed.

Lemma column_concat_col_gather inds boxes scores :
  size1 boxes = 4 -> wf_Var2 boxes ->
  Forall (fun i => i < size0 boxes) inds ->
  column 4 (concat_col (gather_rows inds boxes) (gather 0%Q inds scores)) =
  gather 0%Q inds scores.
Proof.
  intros H4 Hwf Hin. unfold column. rewrite rows_concat_col_gather.
  rewrite map_map. unfold gather. apply map_ext_Forall.
  eapply Forall_impl; [exact Hin |]. intros i Hi. simpl.
  rewrite <- H4, <- (wf_row boxes i) by done. apply nth_last_col.
Qed.

Lemma truncate_minus_one {A} (l : list A) : truncate (-1) l = l.
Proof. reflexivity. Qed.

Lemma truncate_pos {A} mn (l : list A) :
  (0 < mn)%Z -> truncate mn l = take (Z.to_nat mn) l.
Proof. intros H. unfold truncate. apply Z.ltb_lt in H. by rewrite H. Qed.

Lemma NMSop_execute_truncate jn boxes scores thr offset st mn :
  (0 < mn)%Z ->
  NMSop_execute jn boxes scores thr offset st mn =
  take (Z.to_nat mn) (NMSop_execute jn boxes scores thr offset st (-1)).
Proof.
  intros H. unfold NMSop_execute. rewrite truncate_minus_one, truncate_pos by done.
  destruct (Qlt_bool 0 st); [| reflexivity].
  unfold gather. symmetry. apply firstn_map.
Qed.

(** Valid inputs given in full are recognised by evaluation. *)
Ltac valid_input_by_computation :=
  unfold valid_input, wf_Var2; simpl;
  repeat match goal with
         | |- _ /\ _ => split
         | |- Forall _ _ => constructor
         | |- (_ = _ \/ _ = _)%Z => first [left; reflexivity | right; reflexivity]
         | |- _ = _ => reflexivity
         end.

(** * Filtering by score *)

(** C4.  With a positive [score_threshold], [valid_inds] lists exactly the
    positions whose score exceeds the threshold; the rows handed to the
    suppression are the boxes and scores at these positions and no others,
    so each has a score above the threshold; and the indices returned are
    the primitive's (truncated) answer looked up in [valid_inds], each such
    lookup being a position of the original arrays whose score exceeds the
    threshold. *)
Theorem nms_score_threshold jn boxes scores thr offset st mn :
  valid_input boxes scores offset ->
  (0 < st)%Q ->
  let valid_inds := nonzero (map (fun s => Qlt_bool st s) scores) in
  let survivors :=
    concat_col (gather_rows valid_inds boxes) (gather 0%Q valid_inds scores) in
  (forall i, i ∈ valid_inds <-> i < length scores /\ (st < nth i scores 0)%Q) /\
  rows survivors =
    map (fun i => nth i (rows boxes) [] ++ [nth i scores 0%Q]) valid_inds /\
  Forall (fun r => (st < nth 4 r 0)%Q) (rows survivors) /\
  (exists dets,
     nms jn boxes scores thr offset st mn =
     inr (dets, gather 0 (truncate mn (jn survivors thr)) valid_inds)) /\
  (forall k, k < length valid_inds ->
     nth k valid_inds 0 < length scores /\
     (st < nth (nth k valid_inds 0%nat) scores 0)%Q).
Proof.
  intros Hv Hst valid_inds survivors.
  assert (Hin : forall i, i ∈ valid_inds <->
                  i < length scores /\ (st < nth i scores 0)%Q).
  { intros i. unfold valid_inds.
    rewrite (elem_of_nonzero_map _ _ 0%Q), Qlt_bool_iff. reflexivity. }
  destruct Hv as (H4 & Hwf & Hn & Ho).
  split; [exact Hin |]. split; [apply rows_concat_col_gather |].
  split; [| split].
  - unfold survivors. rewrite rows_concat_col_gather.
    apply Forall_forall. intros r Hr. apply list_elem_of_In, in_map_iff in Hr.
    destruct Hr as (i & <- & Hi). apply list_elem_of_In, Hin in Hi.
    destruct Hi as [Hlt Hs].
    rewrite <- H4, <- (wf_row boxes i) by (done || (unfold size0 in *; lia)).
    by rewrite nth_last_col.
  - rewrite nms_valid by done. eexists. simpl. f_equal. f_equal.
    unfold NMSop_execute.
    apply Qlt_bool_iff in Hst. rewrite Hst. reflexivity.
  - intros k Hk. apply Hin, nth_elem_of, Hk.
Qed.

Lemma nms_score_threshold_witness :
  let boxes := mkVar2 4 [[0; 0; 10; 10]; [20; 20; 30; 30]; [0; 0; 10; 10]]%Q in
  let scores := [3 # 10; 9 # 10; 8 # 10]%Q in
  nonzero (map (fun s => Qlt_bool (1 # 2) s) scores) = [1; 2] /\
  kept (nms (Jittor.nms 1) boxes scores (1 # 2) 0 (1 # 2) (-1)) = [1; 2].
Proof.
  intros boxes scores.
  destruct (nms_score_threshold (Jittor.nms 1) boxes scores (1 # 2) 0 (1 # 2) (-1))
    as (_ & _ & _ & [dets Hd] & _).
  - valid_input_by_computation.
  - reflexivity.
  - split; [reflexivity |]. rewrite Hd. vm_compute. reflexivity.
Defined.

(** * The descending sort *)

Section Sort.

Variable key : nat -> Q.

Lemma by_key_trans i j k : (by_key key) i j -> (by_key key) j k -> (by_key key) i k.
Proof. unfold by_key. intros H1 H2. eapply Qle_trans; eauto. Qed.

Lemma insert_desc_perm i l : Jittor.insert_desc key i l ≡ₚ i :: l.
Proof.
  induction l as [| j l IH]; simpl; [reflexivity |].
  destruct (Qle_bool (key j) (key i)); [reflexivity |].
  rewrite IH. apply Permutation_swap.
Qed.

Lemma sort_desc_perm l : Jittor.sort_desc key l ≡ₚ l.
Proof.
  induction l as [| i l IH]; simpl; [reflexivity |].
  rewrite insert_desc_perm. by rewrite IH.
Qed.

Lemma insert_desc_front i l :
  Forall ((by_key key) i) l -> Jittor.insert_desc key i l = i :: l.
Proof.
  destruct l as [| j l]; simpl; [reflexivity |].
  intros H. apply Forall_cons in H as [H _].
  apply Qle_bool_iff in H. by rewrite H.
Qed.

Lemma insert_desc_sorted i l :
  StronglySorted (by_key key) l -> StronglySorted (by_key key) (Jittor.insert_desc key i l).
Proof.
  induction 1 as [| j l Hl IH Hj]; simpl.
  - repeat constructor.
  - destruct (Qle_bool (key j) (key i)) eqn:E.
    + apply Qle_bool_iff in E. constructor; [by constructor |].
      constructor; [exact E |].
      eapply Forall_impl; [exact Hj |]. intros k Hk.
      eapply by_key_trans; eauto.
    + apply Qle_bool_false in E. constructor; [exact IH |].
      rewrite insert_desc_perm. constructor; [| exact Hj].
      apply Qlt_le_weak, E.
Qed.

Lemma sort_desc_sorted l : StronglySorted (by_key key) (Jittor.sort_desc key l).
Proof.
  induction l as [| i l IH]; simpl; [constructor |].
  by apply insert_desc_sorted.
Qed.

(** The sort is stable: it commutes with taking out the positions that
    satisfy a predicate. *)
Lemma insert_desc_filter (P : nat -> Prop) `{!forall i, Decision (P i)} i l :
  StronglySorted (by_key key) l ->
  filter P (Jittor.insert_desc key i l) =
  if decide (P i) then Jittor.insert_desc key i (filter P l) else filter P l.
Proof.
  induction 1 as [| j l Hl IH Hj]; simpl.
  - rewrite filter_cons, filter_nil. by destruct (decide (P i)).
  - destruct (Qle_bool (key j) (key i)) eqn:E.
    + rewrite (filter_cons P i). destruct (decide (P i)); [| reflexivity].
      rewrite insert_desc_front; [reflexivity |].
      apply Qle_bool_iff in E.
      apply Forall_forall. intros k Hk.
      apply list_elem_of_filter in Hk as [_ Hk].
      apply elem_of_cons in Hk as [-> | Hk]; [exact E |].
      rewrite Forall_forall in Hj. eapply by_key_trans; eauto.
    + rewrite !(filter_cons P j), IH.
      destruct (decide (P j)), (decide (P i)); simpl; try reflexivity.
      by rewrite E.
Qed.

Lemma sort_desc_filter (P : nat -> Prop) `{!forall i, Decision (P i)} l :
  filter P (Jittor.sort_desc key l) = Jittor.sort_desc key (filter P l).
Proof.
  induction l as [| i l IH]; simpl; [reflexivity |].
  rewrite insert_desc_filter by apply sort_desc_sorted.
  rewrite filter_cons, IH. by destruct (decide (P i)).
Qed.

End Sort.

Lemma insert_desc_ext key key' i l :
  key i = key' i -> Forall (fun j => key j = key' j) l ->
  Jittor.insert_desc key i l = Jittor.insert_desc key' i l.
Proof.
  intros Hi. induction 1 as [| j l Hj Hl IH]; simpl; [reflexivity |].
  by rewrite Hi, Hj, IH.
Qed.

Lemma sort_desc_ext key key' l :
  Forall (fun j => key j = key' j) l ->
  Jittor.sort_desc key l = Jittor.sort_desc key' l.
Proof.
  induction 1 as [| j l Hj Hl IH]; simpl; [reflexivity |].
  rewrite IH. apply insert_desc_ext; [exact Hj |].
  apply Forall_forall. intros k Hk. rewrite <- IH in Hk.
  rewrite sort_desc_perm in Hk. rewrite Forall_forall in Hl. by apply Hl.
Qed.

Lemma insert_desc_map key (f : nat -> nat) i l :
  map f (Jittor.insert_desc (fun p => key (f p)) i l) =
  Jittor.insert_desc key (f i) (map f l).
Proof.
  induction l as [| j l IH]; simpl; [reflexivity |].
  destruct (Qle_bool (key (f j)) (key (f i))); simpl; [reflexivity |].
  by rewrite IH.
Qed.

Lemma sort_desc_map key (f : nat -> nat) l :
  map f (Jittor.sort_desc (fun p => key (f p)) l) =
  Jittor.sort_desc key (map f l).
Proof.
  induction l as [| i l IH]; simpl; [reflexivity |].
  by rewrite insert_desc_map, IH.
Qed.

Lemma argsort_desc_perm x : Jittor.argsort_desc x ≡ₚ seq 0 (length x).
Proof. apply sort_desc_perm. Qed.

Lemma argsort_desc_sorted x :
  StronglySorted (by_key (fun i => nth i x 0%Q)) (Jittor.argsort_desc x).
Proof. apply sort_desc_sorted. Qed.

Lemma length_argsort_desc x : length (Jittor.argsort_desc x) = length x.
Proof. rewrite argsort_desc_perm. apply length_seq. Qed.

Lemma elem_of_argsort_desc x i : i ∈ Jittor.argsort_desc x <-> i < length x.
Proof. rewrite argsort_desc_perm, elem_of_seq. lia. Qed.

Lemma NoDup_argsort_desc x : NoDup (Jittor.argsort_desc x).
Proof. rewrite argsort_desc_perm. apply NoDup_seq. Qed.

(** * The candidate filter *)

Lemma gather_seq {A} (d : A) (x : list A) : gather d (seq 0 (length x)) x = x.
Proof.
  unfold gather. induction x as [| a x IH]; simpl; [reflexivity |].
  f_equal. rewrite <- seq_shift, map_map. exact IH.
Qed.

Lemma candidate_loop_extends fail todo y :
  exists k, Jittor.candidate_loop fail todo y = y ++ k /\ k `sublist_of` todo.
Proof.
  revert y. induction todo as [| i todo IH]; intros y; simpl.
  - exists []. split; [by rewrite app_nil_r | constructor].
  - unfold Jittor.select_next. destruct (existsb _ y).
    + destruct (IH y) as (k & -> & Hk). exists k. split; [done |].
      by apply sublist_cons.
    + destruct (IH (y ++ [i])) as (k & -> & Hk). exists (i :: k).
      split; [by rewrite <- app_assoc |]. by apply sublist_skip.
Qed.

Lemma candidate_loop_sublist fail todo :
  Jittor.candidate_loop fail todo [] `sublist_of` todo.
Proof. by destruct (candidate_loop_extends fail todo []) as (k & -> & Hk). Qed.

Lemma existsb_map_agree {A B} (f : A -> B) (p : B -> bool) (q : A -> bool) l :
  Forall (fun a => p (f a) = q a) l -> existsb p (map f l) = existsb q l.
Proof. induction 1 as [| a l Ha Hl IH]; simpl; [reflexivity |]. by rewrite Ha, IH. Qed.

(** Renaming the positions renames the selection. *)
Lemma candidate_loop_map (ok : nat -> Prop) (f : nat -> nat) fail fail' todo y :
  (forall j i, ok j -> ok i -> fail' j i = fail (f j) (f i)) ->
  Forall ok todo -> Forall ok y ->
  map f (Jittor.candidate_loop fail' todo y) =
  Jittor.candidate_loop fail (map f todo) (map f y).
Proof.
  intros Hf Htodo. revert y.
  induction Htodo as [| i todo Hi Htodo IH]; intros y Hy; simpl; [reflexivity |].
  unfold Jittor.select_next.
  rewrite (existsb_map_agree f _ (fun j => fail' j i)).
  2:{ eapply Forall_impl; [exact Hy |]. intros j Hj. simpl. symmetry. by apply Hf. }
  destruct (existsb _ y).
  - by apply IH.
  - rewrite IH by (apply Forall_app; split; [done | by constructor]).
    by rewrite map_app.
Qed.

Lemma existsb_filter_agree (P : nat -> Prop) `{!forall i, Decision (P i)}
    (p : nat -> bool) l :
  Forall (fun j => ~ P j -> p j = false) l ->
  existsb p (filter P l) = existsb p l.
Proof.
  induction 1 as [| j l Hj Hl IH]; simpl; [reflexivity |].
  rewrite filter_cons. destruct (decide (P j)); simpl.
  - by rewrite IH.
  - by rewrite IH, Hj.
Qed.

(** When the test never fails between a position inside [P] and a selected
    position outside, the selection inside [P] is the selection made from
    the positions inside [P] alone. *)
Lemma candidate_loop_filter (ok P : nat -> Prop) `{!forall i, Decision (P i)}
    fail todo y :
  (forall j i, ok j -> ok i -> P i -> ~ P j -> fail j i = false) ->
  Forall ok todo -> Forall ok y ->
  filter P (Jittor.candidate_loop fail todo y) =
  Jittor.candidate_loop fail (filter P todo) (filter P y).
Proof.
  intros Hf Htodo. revert y.
  induction Htodo as [| i todo Hi Htodo IH]; intros y Hy; simpl; [reflexivity |].
  rewrite filter_cons. unfold Jittor.select_next.
  destruct (decide (P i)) as [HP | HP]; simpl.
  - unfold Jittor.select_next.
    rewrite (existsb_filter_agree P).
    2:{ eapply Forall_impl; [exact Hy |]. intros j Hj HPj. simpl. by apply Hf. }
    destruct (existsb _ y).
    + by apply IH.
    + rewrite IH by (apply Forall_app; split; [done | by constructor]).
      by rewrite filter_app, filter_cons_True, filter_nil.
  - destruct (existsb _ y).
    + by apply IH.
    + rewrite IH by (apply Forall_app; split; [done | by constructor]).
      by rewrite filter_app, filter_cons_False, filter_nil, app_nil_r.
Qed.

(** [Jittor.nms] in terms of the positions of [dets]: the candidate filter
    run over the positions in descending score order. *)
Lemma Jittor_nms_loop px dets thr :
  Jittor.nms px dets thr =
  Jittor.candidate_loop (pair_fail px (rows dets) thr)
    (Jittor.argsort_desc (column 4 dets)) [].
Proof.
  unfold Jittor.nms, Jittor.candidate.
  set (order := Jittor.argsort_desc (column 4 dets)).
  rewrite length_gather. unfold gather at 1.
  rewrite (candidate_loop_map (fun s => s < length order)
             (fun s => nth s order 0) (pair_fail px (rows dets) thr)).
  - simpl. f_equal. apply (gather_seq 0 order).
  - intros j i Hj Hi. unfold pair_fail. by rewrite !nth_gather.
  - apply Forall_forall. intros s Hs. apply elem_of_seq in Hs. lia.
  - constructor.
Qed.

Lemma Jittor_nms_sublist px dets thr :
  Jittor.nms px dets thr `sublist_of` Jittor.argsort_desc (column 4 dets).
Proof. rewrite Jittor_nms_loop. apply candidate_loop_sublist. Qed.

Lemma NoDup_Jittor_nms px dets thr : NoDup (Jittor.nms px dets thr).
Proof.
  eapply sublist_NoDup; [apply NoDup_argsort_desc | apply Jittor_nms_sublist].
Qed.

Lemma Jittor_nms_lt px dets thr i : i ∈ Jittor.nms px dets thr -> i < size0 dets.
Proof.
  intros Hi. eapply elem_of_sublist in Hi; [| apply Jittor_nms_sublist].
  apply elem_of_argsort_desc in Hi. unfold column in Hi.
  by rewrite length_map in Hi.
Qed.

(** * The kept sequence of [NMSop.execute] *)

Lemma StronglySorted_sublist {A} (R : relation A) l1 l2 :
  l1 `sublist_of` l2 -> StronglySorted R l2 -> StronglySorted R l1.
Proof.
  induction 1 as [| x l1 l2 Hs IH | x l1 l2 Hs IH]; intros H2.
  - constructor.
  - apply StronglySorted_cons in H2 as [Hx H2].
    apply StronglySorted_cons. split; [| by apply IH].
    apply Forall_forall. intros y Hy. rewrite Forall_forall in Hx.
    apply Hx. eapply elem_of_sublist; eauto.
  - apply StronglySorted_cons in H2 as [_ H2]. by apply IH.
Qed.

Lemma StronglySorted_nth {A} (R : relation A) (d : A) l i j :
  StronglySorted R l -> i < j -> j < length l -> R (nth i l d) (nth j l d).
Proof.
  intros H. revert i j. induction H as [| x l Hl IH Hx]; intros i j Hij Hj.
  - simpl in Hj. lia.
  - destruct j as [| j]; [lia |]. simpl in Hj. destruct i as [| i]; simpl.
    + rewrite Forall_forall in Hx. apply Hx, list_elem_of_In, nth_In. lia.
    + apply IH; lia.
Qed.

Lemma non_increasing_gather (s : list Q) (l : list nat) :
  StronglySorted (by_key (fun i => nth i s 0%Q)) l ->
  non_increasing (gather 0%Q l s).
Proof.
  intros Hl i j Hij Hj. rewrite length_gather in Hj.
  rewrite !nth_gather by lia.
  destruct (decide (i = j)) as [-> | Hne]; [apply Qle_refl |].
  apply (StronglySorted_nth _ 0 l i j Hl); lia.
Qed.

Lemma column_concat_col boxes scores :
  size1 boxes = 4 -> wf_Var2 boxes -> size0 boxes = length scores ->
  column 4 (concat_col boxes scores) = scores.
Proof.
  intros H4 Hwf Hn.
  rewrite <- (gather_seq 0%Q scores) at 1. rewrite <- Hn.
  replace boxes with (gather_rows (seq 0 (size0 boxes)) boxes) at 1.
  - rewrite column_concat_col_gather by
      (try done; apply Forall_forall; intros i Hi; apply elem_of_seq in Hi; lia).
    rewrite Hn. apply gather_seq.
  - unfold gather_rows, size0. rewrite gather_seq. by destruct boxes.
Qed.

Lemma gather_gather {A} (d : A) inds sub x :
  Forall (fun k => k < length sub) inds ->
  gather d (gather 0 inds sub) x = gather d inds (gather d sub x).
Proof.
  intros H. unfold gather at 1 2 3. rewrite map_map.
  apply map_ext_Forall. eapply Forall_impl; [exact H |].
  intros k Hk. simpl. symmetry. by apply nth_gather.
Qed.

Lemma gather_id inds n :
  Forall (fun k => k < n) inds -> gather 0 inds (seq 0 n) = inds.
Proof.
  intros H. unfold gather. rewrite <- (map_id inds) at 2.
  apply map_ext_Forall. eapply Forall_impl; [exact H |].
  intros k Hk. simpl. by rewrite seq_nth.
Qed.

Lemma truncate_sublist {A} mn (l : list A) : truncate mn l `sublist_of` l.
Proof. unfold truncate. destruct (0 <? mn)%Z; [apply sublist_take | done]. Qed.

Lemma lookup_nth {A} (d : A) l i : i < length l -> l !! i = Some (nth i l d).
Proof. intros H. destruct (nth_lookup_or_length l i d); [done | lia]. Qed.

Lemma NoDup_gather (inds sub : list nat) :
  NoDup sub -> NoDup inds -> Forall (fun k => k < length sub) inds ->
  NoDup (gather 0 inds sub).
Proof.
  intros Hsub Hinds Hlt. unfold gather.
  change (NoDup ((fun i => nth i sub 0) <$> inds)).
  apply NoDup_fmap_2_strong; [| exact Hinds].
  rewrite Forall_forall in Hlt.
  intros a b Ha Hb Hab.
  apply (NoDup_lookup sub a b (nth a sub 0)); [exact Hsub | |].
  - apply lookup_nth; auto.
  - rewrite Hab. apply lookup_nth; auto.
Qed.

Lemma NMSop_execute_shape px boxes scores thr offset st :
  valid_input boxes scores offset ->
  exists sub full,
    NoDup sub /\
    Forall (fun i => i < length scores) sub /\
    full `sublist_of` Jittor.argsort_desc (gather 0%Q sub scores) /\
    forall mn,
      NMSop_execute (Jittor.nms px) boxes scores thr offset st mn =
      gather 0 (truncate mn full) sub.
Proof.
  intros (H4 & Hwf & Hn & Ho). unfold NMSop_execute.
  destruct (Qlt_bool 0 st).
  - set (valid_inds := nonzero (map (fun s => Qlt_bool st s) scores)).
    assert (Hlt : Forall (fun i => i < length scores) valid_inds).
    { apply Forall_forall. intros i Hi. apply nonzero_lt in Hi.
      by rewrite length_map in Hi. }
    eexists valid_inds, _. split; [apply NoDup_nonzero |].
    split; [exact Hlt |]. split; [| reflexivity].
    unfold select_rows, select. fold valid_inds.
    pose proof (Jittor_nms_sublist px
      (concat_col (gather_rows valid_inds boxes) (gather 0%Q valid_inds scores))
      thr) as Hs.
    rewrite column_concat_col_gather in Hs; [exact Hs | done | done |].
    by rewrite Hn.
  - exists (seq 0 (length scores)), (Jittor.nms px (concat_col boxes scores) thr).
    split; [apply NoDup_seq |].
    split; [apply Forall_forall; intros i Hi; apply elem_of_seq in Hi; lia |].
    rewrite gather_seq.
    assert (Hs : Jittor.nms px (concat_col boxes scores) thr `sublist_of`
                 Jittor.argsort_desc scores).
    { pose proof (Jittor_nms_sublist px (concat_col boxes scores) thr) as Hs.
      by rewrite column_concat_col in Hs. }
    split; [exact Hs |]. intros mn. symmetry. apply gather_id.
    apply Forall_forall. intros k Hk.
    eapply elem_of_sublist in Hk; [| apply truncate_sublist].
    eapply elem_of_sublist in Hk; [| exact Hs].
    by apply elem_of_argsort_desc in Hk.
Qed.

(** The kept sequence of a valid call: distinct positions of the input, in
    an order in which their scores never increase. *)
Lemma NMSop_execute_kept px boxes scores thr offset st mn :
  valid_input boxes scores offset ->
  let inds := NMSop_execute (Jittor.nms px) boxes scores thr offset st mn in
  NoDup inds /\
  Forall (fun i => i < length scores) inds /\
  non_increasing (gather 0%Q inds scores).
Proof.
  intros Hv inds.
  destruct (NMSop_execute_shape px boxes scores thr offset st Hv)
    as (sub & full & Hnd & Hsub & Hfull & Hex).
  unfold inds. rewrite Hex.
  assert (Ht : truncate mn full `sublist_of`
               Jittor.argsort_desc (gather 0%Q sub scores)).
  { etransitivity; [apply truncate_sublist | exact Hfull]. }
  assert (Hlt : Forall (fun k => k < length sub) (truncate mn full)).
  { apply Forall_forall. intros k Hk. eapply elem_of_sublist in Hk; [| exact Ht].
    apply elem_of_argsort_desc in Hk. by rewrite length_gather in Hk. }
  split; [| split].
  - apply NoDup_gather; [exact Hnd | | exact Hlt].
    eapply sublist_NoDup; [apply NoDup_argsort_desc | exact Ht].
  - apply Forall_forall. intros i Hi.
    apply list_elem_of_In, in_map_iff in Hi. destruct Hi as (k & <- & Hk).
    rewrite Forall_forall in Hsub, Hlt. apply Hsub, nth_elem_of, Hlt.
    by apply list_elem_of_In.
  - rewrite gather_gather by exact Hlt.
    apply non_increasing_gather.
    eapply StronglySorted_sublist; [exact Ht | apply argsort_desc_sorted].
Qed.

Lemma column_dets boxes scores inds :
  size1 boxes = 4 -> wf_Var2 boxes -> size0 boxes = length scores ->
  Forall (fun i => i < length scores) inds ->
  column 4 (concat_col (gather_rows inds boxes) (gather 0%Q inds scores)) =
  gather 0%Q inds scores.
Proof.
  intros H4 Hwf Hn Hlt. apply column_concat_col_gather; try done.
  by rewrite Hn.
Qed.

(** C2.  A valid call of [nms] returns rows whose score column is the
    scores of the input at the kept indices, and this column never
    increases from one row to the next. *)
Theorem nms_scores_non_increasing px boxes scores thr offset st mn :
  valid_input boxes scores offset ->
  exists dets inds,
    nms (Jittor.nms px) boxes scores thr offset st mn = inr (dets, inds) /\
    column 4 dets = gather 0%Q inds scores /\
    non_increasing (column 4 dets).
Proof.
  intros Hv. rewrite nms_valid by exact Hv.
  destruct (NMSop_execute_kept px boxes scores thr offset st mn Hv)
    as (Hnd & Hlt & Hsorted).
  destruct Hv as (H4 & Hwf & Hn & Ho).
  eexists _, _. split; [reflexivity |].
  rewrite column_dets by done. by split.
Qed.

Lemma nms_scores_non_increasing_witness :
  let boxes := mkVar2 4 [[0; 0; 10; 10]; [20; 20; 30; 30]; [1; 1; 10; 10]]%Q in
  let scores := [3 # 10; 9 # 10; 8 # 10]%Q in
  exists dets inds,
    nms (Jittor.nms 1) boxes scores (1 # 2) 0 0 (-1) = inr (dets, inds) /\
    column 4 dets = gather 0%Q inds scores /\
    non_increasing (column 4 dets).
Proof.
  intros boxes scores.
  apply (nms_scores_non_increasing 1 boxes scores (1 # 2) 0 0 (-1)).
  valid_input_by_computation.
Defined.

Example nms_scores_example :
  nms (Jittor.nms 1)
    (mkVar2 4 [[0; 0; 10; 10]; [20; 20; 30; 30]; [1; 1; 10; 10]]%Q)
    [3 # 10; 9 # 10; 8 # 10]%Q (1 # 2) 0 0 (-1) =
  inr (mkVar2 5 [[20; 20; 30; 30; 9 # 10]; [1; 1; 10; 10; 8 # 10]]%Q, [1; 2]).
Proof. vm_compute. reflexivity. Qed.

(** C3.  With a positive [max_num], a valid call of [nms] returns at most
    [max_num] indices: the first [max_num] of the sequence the same call
    keeps without a bound, rows likewise; and no index that the bound cuts
    off has a larger score than one that is returned. *)
Theorem nms_max_num px boxes scores thr offset st mn :
  valid_input boxes scores offset ->
  (0 < mn)%Z ->
  exists dets inds dets' inds',
    nms (Jittor.nms px) boxes scores thr offset st mn = inr (dets, inds) /\
    nms (Jittor.nms px) boxes scores thr offset st (-1) = inr (dets', inds') /\
    inds = take (Z.to_nat mn) inds' /\
    rows dets = take (Z.to_nat mn) (rows dets') /\
    length inds <= Z.to_nat mn /\
    forall i j, i ∈ inds -> j ∈ drop (Z.to_nat mn) inds' ->
      (nth j scores 0 <= nth i scores 0)%Q.
Proof.
  intros Hv Hmn. rewrite !nms_valid by exact Hv.
  destruct (NMSop_execute_kept px boxes scores thr offset st (-1) Hv)
    as (Hnd & Hlt & Hsorted).
  rewrite (NMSop_execute_truncate _ _ _ _ _ _ mn Hmn).
  set (inds' := NMSop_execute (Jittor.nms px) boxes scores thr offset st (-1)) in *.
  eexists _, _, _, _. split; [reflexivity |]. split; [reflexivity |].
  split; [reflexivity |]. split; [| split].
  - rewrite !rows_concat_col_gather. symmetry. apply firstn_map.
  - rewrite length_take. lia.
  - intros i j Hi Hj.
    apply list_elem_of_lookup in Hi as [a Ha].
    apply list_elem_of_lookup in Hj as [b Hb].
    apply lookup_take_Some in Ha as [Ha Hlta].
    rewrite lookup_drop in Hb.
    pose proof (lookup_lt_Some _ _ _ Hb) as Hltb.
    specialize (Hsorted a (Z.to_nat mn + b)). rewrite length_gather in Hsorted.
    rewrite !nth_gather in Hsorted by (lia || (eapply lookup_lt_Some; eauto)).
    rewrite (nth_lookup_Some _ _ _ _ Ha), (nth_lookup_Some _ _ _ _ Hb) in Hsorted.
    apply Hsorted; lia.
Qed.

Lemma nms_max_num_witness :
  let boxes := mkVar2 4 [[0; 0; 10; 10]; [20; 20; 30; 30]; [40; 40; 50; 50]]%Q in
  let scores := [3 # 10; 9 # 10; 8 # 10]%Q in
  kept (nms (Jittor.nms 1) boxes scores (1 # 2) 0 0 2) =
  take 2 (kept (nms (Jittor.nms 1) boxes scores (1 # 2) 0 0 (-1))).
Proof.
  intros boxes scores.
  destruct (nms_max_num 1 boxes scores (1 # 2) 0 0 2)
    as (dets & inds & dets' & inds' & -> & -> & -> & _).
  - valid_input_by_computation.
  - lia.
  - reflexivity.
Defined.

Example nms_max_num_example :
  let boxes := mkVar2 4 [[0; 0; 10; 10]; [20; 20; 30; 30]; [40; 40; 50; 50]]%Q in
  let scores := [3 # 10; 9 # 10; 8 # 10]%Q in
  kept (nms (Jittor.nms 1) boxes scores (1 # 2) 0 0 2) = [1; 2] /\
  kept (nms (Jittor.nms 1) boxes scores (1 # 2) 0 0 (-1)) = [1; 2; 0].
Proof. split; vm_compute; reflexivity. Qed.

(** * The coordinate trick *)

Lemma fold_left_Qmax_ge l v :
  (v <= fold_left Qmax l v)%Q /\ Forall (fun c => (c <= fold_left Qmax l v)%Q) l.
Proof.
  revert v. induction l as [| c l IH]; intros v; simpl.
  - split; [apply Qle_refl | constructor].
  - destruct (IH (Qmax v c)) as [H1 H2]. split; [| constructor; [| exact H2]].
    + eapply Qle_trans; [apply Q.le_max_l | exact H1].
    + eapply Qle_trans; [apply Q.le_max_r | exact H1].
Qed.

Lemma max_all_ge boxes i k :
  i < size0 boxes -> k < length (nth i (rows boxes) []) ->
  (nth k (nth i (rows boxes) []) 0 <= max_all boxes)%Q.
Proof.
  intros Hi Hk.
  assert (Hin : nth k (nth i (rows boxes) []) 0%Q ∈ concat (rows boxes)).
  { apply list_elem_of_In, in_concat. exists (nth i (rows boxes) []).
    split; apply nth_In; done. }
  unfold max_all. destruct (concat (rows boxes)) as [| v vs].
  - by apply elem_of_nil in Hin.
  - destruct (fold_left_Qmax_ge vs v) as [Hv Hvs].
    apply elem_of_cons in Hin as [-> | Hin]; [exact Hv |].
    rewrite Forall_forall in Hvs. by apply Hvs.
Qed.

Lemma nth_zip_with {A B C} (f : A -> B -> C) (da : A) (db : B) (dc : C) l k i :
  i < length l -> i < length k ->
  nth i (zip_with f l k) dc = f (nth i l da) (nth i k db).
Proof.
  revert k i. induction l as [| a l IH]; intros [| b k] [| i] Hl Hk;
    simpl in *; try lia; [reflexivity |]. apply IH; lia.
Qed.

Lemma size0_boxes_for_nms ca boxes idxs :
  length idxs = size0 boxes -> size0 (boxes_for_nms ca boxes idxs) = size0 boxes.
Proof.
  intros Hn. unfold boxes_for_nms. destruct ca; [reflexivity |].
  unfold size0 in *. simpl. rewrite length_zip_with, length_map. lia.
Qed.

Lemma size1_boxes_for_nms ca boxes idxs :
  size1 (boxes_for_nms ca boxes idxs) = size1 boxes.
Proof. unfold boxes_for_nms. by destruct ca. Qed.

Lemma wf_boxes_for_nms ca boxes idxs :
  wf_Var2 boxes -> wf_Var2 (boxes_for_nms ca boxes idxs).
Proof.
  intros Hwf. unfold boxes_for_nms. destruct ca; [exact Hwf |].
  unfold wf_Var2 in *. simpl. generalize (max_all boxes). intros M.
  revert idxs. induction Hwf as [| r rs Hr Hrs IH]; intros [| g idxs]; simpl;
    try constructor.
  - by rewrite length_map.
  - apply IH.
Qed.

(** The row of a box once moved: every coordinate plus the group offset. *)
Lemma row_boxes_for_nms boxes idxs i :
  length idxs = size0 boxes -> i < size0 boxes ->
  nth i (rows (boxes_for_nms false boxes idxs)) [] =
  map (fun c => (c + inject_Z (nth i idxs 0%Z) * (max_all boxes + 1))%Q)
      (nth i (rows boxes) []).
Proof.
  intros Hn Hi. unfold boxes_for_nms. simpl.
  rewrite (nth_zip_with _ [] 0%Q) by (rewrite ?length_map; unfold size0 in *; lia).
  rewrite (nth_indep (map _ idxs) 0%Q (inject_Z 0 * (max_all boxes + 1))%Q)
    by (rewrite length_map; unfold size0 in *; lia).
  by rewrite (map_nth (fun g => (inject_Z g * (max_all boxes + 1))%Q)).
Qed.

Lemma fail_cond_no_overlap px thr a b :
  (0 <= thr)%Q -> (Jittor.inter_w px a b == 0)%Q -> Jittor.fail_cond px thr a b = false.
Proof.
  intros Hthr Hw. unfold Jittor.fail_cond. apply negb_false_iff, Qle_bool_iff.
  assert (H0 : (Jittor.iou px a b == 0)%Q).
  { unfold Jittor.iou, Jittor.inter, Qdiv. rewrite Hw. ring. }
  by rewrite H0.
Qed.

Lemma inter_w_apart (px a0 a2 b0 b2 : Q) :
  (Qmin a2 b2 - Qmax a0 b0 + px <= 0)%Q ->
  (Qmax 0 (Qmin a2 b2 - Qmax a0 b0 + px) == 0)%Q.
Proof. intros H. by apply Q.max_l. Qed.

(** Two boxes with coordinates between 0 and [M], moved by offsets that
    differ by [M + 1] or more, have an intersection of width 0 under every
    convention [px] up to 1. *)
Lemma inter_w_shifted (px M oa ob : Q) (ra rb : list Q) (sa sb : Q) :
  (px <= 1)%Q ->
  length ra = 4 -> length rb = 4 ->
  Forall (fun c => (0 <= c <= M)%Q) ra ->
  Forall (fun c => (0 <= c <= M)%Q) rb ->
  (M + 1 <= ob - oa)%Q \/ (M + 1 <= oa - ob)%Q ->
  (Jittor.inter_w px (map (fun c => (c + oa)%Q) ra ++ [sa])
                  (map (fun c => (c + ob)%Q) rb ++ [sb]) == 0)%Q.
Proof.
  intros Hpx Ha Hb Hra Hrb Hoff.
  destruct ra as [| a0 [| a1 [| a2 [| a3 [| ? ?]]]]]; try discriminate Ha.
  destruct rb as [| b0 [| b1 [| b2 [| b3 [| ? ?]]]]]; try discriminate Hb.
  unfold Jittor.inter_w. simpl. apply inter_w_apart.
  repeat match goal with H : Forall _ (_ :: _) |- _ =>
    apply Forall_cons in H; destruct H end.
  pose proof (Q.le_min_l (a2 + oa) (b2 + ob)).
  pose proof (Q.le_min_r (a2 + oa) (b2 + ob)).
  pose proof (Q.le_max_l (a0 + oa) (b0 + ob)).
  pose proof (Q.le_max_r (a0 + oa) (b0 + ob)).
  destruct Hoff; lra.
Qed.

Lemma group_offsets_apart (M : Q) (ga gb : Z) :
  (0 <= M)%Q -> ga <> gb ->
  (M + 1 <= inject_Z gb * (M + 1) - inject_Z ga * (M + 1))%Q \/
  (M + 1 <= inject_Z ga * (M + 1) - inject_Z gb * (M + 1))%Q.
Proof.
  intros HM Hne.
  destruct (Z.lt_total ga gb) as [Hlt | [Heq | Hgt]]; [left | done | right].
  - assert (H1 : (inject_Z ga + 1 <= inject_Z gb)%Q).
    { change 1%Q with (inject_Z 1). rewrite <- inject_Z_plus.
      rewrite <- Zle_Qle. lia. }
    nra.
  - assert (H1 : (inject_Z gb + 1 <= inject_Z ga)%Q).
    { change 1%Q with (inject_Z 1). rewrite <- inject_Z_plus.
      rewrite <- Zle_Qle. lia. }
    nra.
Qed.

Lemma row_bounds boxes i :
  size1 boxes = 4 -> wf_Var2 boxes -> non_negative boxes -> i < size0 boxes ->
  length (nth i (rows boxes) []) = 4 /\
  Forall (fun c => (0 <= c <= max_all boxes)%Q) (nth i (rows boxes) []).
Proof.
  intros H4 Hwf Hnn Hi.
  assert (Hlen : length (nth i (rows boxes) []) = 4)
    by (by rewrite wf_row).
  split; [exact Hlen |].
  unfold non_negative in Hnn. rewrite Forall_forall in Hnn.
  specialize (Hnn (nth i (rows boxes) [])).
  rewrite Forall_forall in Hnn. apply Forall_forall. intros c Hc.
  split.
  - apply Hnn; [| exact Hc]. apply list_elem_of_In, nth_In, Hi.
  - apply list_elem_of_In, (In_nth _ _ 0%Q) in Hc. destruct Hc as (k & Hk & <-).
    by apply max_all_ge.
Qed.

Lemma max_all_nonneg boxes :
  size1 boxes = 4 -> wf_Var2 boxes -> non_negative boxes -> 0 < size0 boxes ->
  (0 <= max_all boxes)%Q.
Proof.
  intros H4 Hwf Hnn Hpos.
  destruct (row_bounds boxes 0 H4 Hwf Hnn Hpos) as [Hlen Hb].
  destruct (nth 0 (rows boxes) []) as [| c r]; [discriminate Hlen |].
  apply Forall_cons in Hb as [[H0 HM] _]. lra.
Qed.

Lemma row_concat_col boxes scores i :
  size0 boxes = length scores -> i < size0 boxes ->
  nth i (rows (concat_col boxes scores)) [] =
  nth i (rows boxes) [] ++ [nth i scores 0%Q].
Proof.
  intros Hn Hi. unfold concat_col. simpl.
  apply (nth_zip_with (fun r v => r ++ [v]) [] 0%Q); unfold size0 in *; lia.
Qed.

(** With non-negative coordinates and a non-negative threshold, the overlap
    test never fails between moved boxes of different groups. *)
Lemma cross_group_never_fails px boxes scores idxs thr j i :
  (px <= 1)%Q ->
  size1 boxes = 4 -> wf_Var2 boxes -> size0 boxes = length scores ->
  length idxs = size0 boxes -> non_negative boxes -> (0 <= thr)%Q ->
  j < size0 boxes -> i < size0 boxes ->
  nth j idxs 0%Z <> nth i idxs 0%Z ->
  pair_fail px (rows (concat_col (boxes_for_nms false boxes idxs) scores)) thr j i
  = false.
Proof.
  intros Hpx H4 Hwf Hn Hidx Hnn Hthr Hj Hi Hne. unfold pair_fail.
  rewrite !row_concat_col by (rewrite ?size0_boxes_for_nms; done).
  rewrite !row_boxes_for_nms by done.
  destruct (row_bounds boxes j H4 Hwf Hnn Hj) as [Hlj Hbj].
  destruct (row_bounds boxes i H4 Hwf Hnn Hi) as [Hli Hbi].
  apply fail_cond_no_overlap; [exact Hthr |].
  apply (inter_w_shifted px (max_all boxes)); try done.
  apply group_offsets_apart; [| exact Hne].
  apply max_all_nonneg; try done. lia.
Qed.

(** * Suppression within a group *)

Lemma in_group_iff idxs g i :
  in_group idxs g i <-> i < length idxs /\ nth i idxs 0%Z = g.
Proof.
  unfold in_group. rewrite <- elem_of_nonzero.
  rewrite (elem_of_nonzero_map _ _ 0%Z). by rewrite Z.eqb_eq.
Qed.

Lemma group_mask idxs g :
  nonzero (map (fun x => (x =? g)%Z) idxs) =
  filter (in_group idxs g) (seq 0 (length idxs)).
Proof. unfold nonzero. by rewrite length_map. Qed.

Lemma group_mask_lt idxs g i :
  i ∈ nonzero (map (fun x => (x =? g)%Z) idxs) -> i < length idxs.
Proof. intros H. apply nonzero_lt in H. by rewrite length_map in H. Qed.

Section Groups.

Variables (px : Q) (b4nms : Var2) (scores : list Q) (thr : Q).
Hypothesis H4 : size1 b4nms = 4.
Hypothesis Hwf : wf_Var2 b4nms.
Hypothesis Hn : size0 b4nms = length scores.

Lemma Jittor_nms_all :
  Jittor.nms px (concat_col b4nms scores) thr =
  Jittor.candidate_loop (pair_fail px (rows (concat_col b4nms scores)) thr)
    (Jittor.sort_desc (fun i => nth i scores 0%Q) (seq 0 (length scores))) [].
Proof.
  rewrite Jittor_nms_loop.
  by rewrite column_concat_col.
Qed.

(** Suppression over the boxes at the positions [mask] alone, in terms
    of the positions of the whole input. *)
Lemma Jittor_nms_gathered mask :
  Forall (fun i => i < length scores) mask ->
  gather 0
    (Jittor.nms px (concat_col (gather_rows mask b4nms) (gather 0%Q mask scores))
                thr)
    mask =
  Jittor.candidate_loop (pair_fail px (rows (concat_col b4nms scores)) thr)
    (Jittor.sort_desc (fun i => nth i scores 0%Q) mask) [].
Proof.
  intros Hmask. rewrite Jittor_nms_loop.
  rewrite column_concat_col_gather by (try done; by rewrite Hn).
  rewrite rows_concat_col_gather. unfold gather at 1.
  rewrite (candidate_loop_map (fun p => p < length mask)
             (fun p => nth p mask 0) (pair_fail px (rows (concat_col b4nms scores)) thr)).
  - simpl. f_equal. unfold Jittor.argsort_desc. rewrite length_gather.
    rewrite (sort_desc_ext _ (fun p => nth (nth p mask 0) scores 0%Q)).
    + rewrite (sort_desc_map (fun i => nth i scores 0%Q)
                 (fun p => nth p mask 0)).
      f_equal. apply (gather_seq 0 mask).
    + apply Forall_forall. intros p Hp. apply elem_of_seq in Hp.
      apply nth_gather. lia.
  - intros j i Hj Hi. unfold pair_fail.
    assert (Hrow : forall p, p < length mask ->
              nth p (map (fun i0 => nth i0 (rows b4nms) [] ++ [nth i0 scores 0%Q])
                         mask) [] =
              nth (nth p mask 0) (rows (concat_col b4nms scores)) []).
    { intros p Hp.
      rewrite (nth_indep _ []
                 (nth 0 (rows b4nms) [] ++ [nth 0 scores 0%Q]))
        by (by rewrite length_map).
      rewrite (map_nth (fun i0 => nth i0 (rows b4nms) [] ++ [nth i0 scores 0%Q])).
      rewrite row_concat_col; [reflexivity | done |].
      rewrite Hn. rewrite Forall_forall in Hmask. by apply Hmask, nth_elem_of. }
    by rewrite !Hrow.
  - apply Forall_forall. intros p Hp. apply elem_of_argsort_desc in Hp.
    by rewrite length_gather in Hp.
  - constructor.
Qed.

(** When the overlap test never fails across groups, what the suppression
    over a group alone keeps is what the suppression over all boxes keeps
    of that group. *)
Lemma group_kept idxs g :
  length idxs = length scores ->
  (forall j i, j < length scores -> i < length scores ->
     nth j idxs 0%Z <> nth i idxs 0%Z ->
     pair_fail px (rows (concat_col b4nms scores)) thr j i = false) ->
  let mask := nonzero (map (fun x => (x =? g)%Z) idxs) in
  gather 0
    (Jittor.nms px (concat_col (gather_rows mask b4nms) (gather 0%Q mask scores))
                thr)
    mask =
  filter (in_group idxs g) (Jittor.nms px (concat_col b4nms scores) thr).
Proof.
  intros Hidx Hcross mask.
  rewrite Jittor_nms_gathered.
  2:{ apply Forall_forall. intros i Hi. apply group_mask_lt in Hi. lia. }
  rewrite Jittor_nms_all.
  rewrite (candidate_loop_filter (fun i => i < length scores)).
  - rewrite sort_desc_filter. unfold mask. rewrite group_mask, Hidx.
    by rewrite filter_nil.
  - intros j i Hj Hi Pi Pj. apply Hcross; try done.
    apply in_group_iff in Pi as [_ Pi]. intros Heq. apply Pj.
    apply in_group_iff. split; [lia | congruence].
  - apply Forall_forall. intros i Hi.
    rewrite sort_desc_perm in Hi. apply elem_of_seq in Hi. lia.
  - constructor.
Qed.

End Groups.

(** * The loop over the groups *)

Lemma marked_lookup tm i :
  marked tm i <-> exists v, tm !! i = Some v /\ Qeq_bool v 0 = false.
Proof.
  unfold marked, as_mask. rewrite nth_lookup, list_lookup_fmap.
  destruct (tm !! i) as [v |]; simpl.
  - rewrite negb_true_iff. split; [eauto |]. by intros (? & [= <-] & ?).
  - split; [done |]. by intros (? & ? & _).
Qed.

Lemma marked_lt tm i : marked tm i -> i < length tm.
Proof.
  intros H. apply marked_lookup in H as (v & Hv & _).
  eapply lookup_lt_Some; eauto.
Qed.

Lemma marked_zeros {A} (x : list A) i : ~ marked (map (fun _ => 0%Q) x) i.
Proof.
  intros H. apply marked_lookup in H as (v & Hv & Hne).
  change (((fun _ => 0%Q) <$> x) !! i = Some v) in Hv.
  rewrite list_lookup_fmap in Hv. destruct (x !! i); simpl in Hv; [| done].
  injection Hv as <-. discriminate Hne.
Qed.

Lemma marked_insert tm a i :
  marked (<[a := 1%Q]> tm) i <-> (i = a /\ i < length tm) \/ marked tm i.
Proof.
  rewrite !marked_lookup. destruct (decide (i = a)) as [-> | Hne].
  - destruct (decide (a < length tm)) as [Hlt | Hge].
    + rewrite list_lookup_insert_eq by done. split; [auto |].
      intros _. by exists 1%Q.
    + rewrite list_insert_ge by lia. split; [auto |].
      intros [[_ ?] | H]; [lia | exact H].
  - rewrite list_lookup_insert_ne by done. split; [auto |].
    intros [[? _] | H]; [done | exact H].
Qed.

Lemma length_assign_const {A} inds (v : A) x :
  length (assign_const inds v x) = length x.
Proof.
  unfold assign_const. revert x.
  induction inds as [| a inds IH]; intros x; simpl; [reflexivity |].
  by rewrite IH, length_insert.
Qed.

Lemma marked_assign_const inds tm i :
  marked (assign_const inds 1%Q tm) i <->
  (i ∈ inds /\ i < length tm) \/ marked tm i.
Proof.
  unfold assign_const. revert tm.
  induction inds as [| a inds IH]; intros tm; simpl.
  - split; [auto |]. intros [[H _] | H]; [by apply elem_of_nil in H | exact H].
  - rewrite IH, marked_insert, length_insert, elem_of_cons. tauto.
Qed.

Lemma NMSop_execute_plain jn boxes scores thr offset :
  NMSop_execute jn boxes scores thr offset 0 (-1) = jn (concat_col boxes scores) thr.
Proof. reflexivity. Qed.

Lemma elem_of_insert_unique z l x :
  x ∈ insert_unique z l <-> x = z \/ x ∈ l.
Proof.
  induction l as [| y l IH]; simpl.
  - rewrite list_elem_of_singleton, elem_of_nil. tauto.
  - destruct (z <? y)%Z; [by rewrite !elem_of_cons |].
    destruct (z =? y)%Z eqn:E.
    + apply Z.eqb_eq in E as ->. rewrite elem_of_cons. tauto.
    + rewrite !elem_of_cons, IH. tauto.
Qed.

Lemma elem_of_unique idxs g : g ∈ unique idxs <-> g ∈ idxs.
Proof.
  unfold unique. induction idxs as [| z idxs IH]; simpl; [done |].
  by rewrite elem_of_insert_unique, elem_of_cons, IH.
Qed.

Section Loop.

Variables (px : Q) (b4nms : Var2) (scores : list Q) (idxs : list Z) (thr : Q).
Hypothesis H4 : size1 b4nms = 4.
Hypothesis Hwf : wf_Var2 b4nms.
Hypothesis Hn : size0 b4nms = length scores.
Hypothesis Hidx : length idxs = length scores.

Lemma group_call_valid g :
  let mask := nonzero (map (fun x => (x =? g)%Z) idxs) in
  valid_input (gather_rows mask b4nms) (gather 0%Q mask scores) 0.
Proof.
  intros mask. unfold valid_input. split; [exact H4 |].
  split; [| split; [| by left]].
  - unfold wf_Var2, gather_rows, gather. simpl.
    apply Forall_forall. intros r Hr.
    apply list_elem_of_In, in_map_iff in Hr. destruct Hr as (i & <- & Hi).
    apply wf_row; [done |]. apply list_elem_of_In, group_mask_lt in Hi. lia.
  - unfold size0, gather_rows. simpl. by rewrite !length_gather.
Qed.

Lemma group_step_run tm sa g :
  exists sa',
    group_step (Jittor.nms px) b4nms scores idxs thr (tm, sa) g =
    inr (assign_const (group_keeps px b4nms scores idxs thr g) 1%Q tm, sa').
Proof.
  unfold group_step. rewrite nms_valid by apply group_call_valid.
  simpl. rewrite NMSop_execute_plain. eexists. reflexivity.
Qed.

Lemma group_loop_run ids tm sa :
  exists tm' sa',
    group_loop (Jittor.nms px) b4nms scores idxs thr ids (tm, sa) = inr (tm', sa') /\
    length tm' = length tm /\
    forall i, marked tm' i <->
      marked tm i \/
      (i < length tm /\
       exists g, g ∈ ids /\ i ∈ group_keeps px b4nms scores idxs thr g).
Proof.
  unfold group_loop.
  set (F := fun r id =>
         bind_r r (fun acc =>
           group_step (Jittor.nms px) b4nms scores idxs thr acc id)).
  revert tm sa.
  induction ids as [| g ids IH]; intros tm sa.
  - exists tm, sa. split; [reflexivity |]. split; [reflexivity |].
    intros i. split; [auto |]. intros [H | (_ & g & Hg & _)]; [exact H |].
    by apply elem_of_nil in Hg.
  - change (fold_left F (g :: ids) (inr (tm, sa)))
      with (fold_left F ids
              (group_step (Jittor.nms px) b4nms scores idxs thr (tm, sa) g)).
    destruct (group_step_run tm sa g) as [sa1 ->].
    destruct (IH (assign_const (group_keeps px b4nms scores idxs thr g) 1%Q tm) sa1)
      as (tm' & sa' & -> & Hlen & Hmark).
    exists tm', sa'. split; [reflexivity |].
    rewrite length_assign_const in Hlen, Hmark. split; [exact Hlen |].
    intros i. rewrite Hmark, marked_assign_const. split.
    + intros [[[Hi Hlt] | Hm] | (Hlt & g' & Hg' & Hi)].
      * right. split; [exact Hlt |]. exists g. split; [by left | exact Hi].
      * by left.
      * right. split; [exact Hlt |]. exists g'. split; [by right | exact Hi].
    + intros [Hm | (Hlt & g' & Hg' & Hi)]; [left; by right |].
      apply elem_of_cons in Hg' as [-> | Hg'].
      * left. by left.
      * right. split; [exact Hlt |]. by exists g'.
Qed.

Lemma group_keeps_lt g i :
  i ∈ group_keeps px b4nms scores idxs thr g -> i < length scores.
Proof.
  unfold group_keeps. intros Hi.
  apply list_elem_of_In, in_map_iff in Hi. destruct Hi as (k & <- & Hk).
  apply list_elem_of_In, Jittor_nms_lt in Hk.
  unfold size0, concat_col, gather_rows in Hk. simpl in Hk.
  rewrite length_zip_with, !length_gather in Hk.
  rewrite <- Hidx. eapply group_mask_lt, nth_elem_of. lia.
Qed.

End Loop.

(** * The two paths of [batched_nms] *)

Lemma gather_perm (inds keep : list nat) :
  inds ≡ₚ seq 0 (length keep) -> gather 0 inds keep ≡ₚ keep.
Proof.
  intros H. rewrite <- (gather_seq 0 keep) at 2. unfold gather.
  by apply Permutation_map.
Qed.

Section Paths.

Variables (px : Q) (boxes b4nms : Var2) (scores : list Q) (idxs : list Z)
  (thr : Q).
Hypothesis H4 : size1 b4nms = 4.
Hypothesis Hwf : wf_Var2 b4nms.
Hypothesis Hn : size0 b4nms = length scores.
Hypothesis Hidx : length idxs = length scores.

(** The small-input path keeps what one suppression over all boxes keeps. *)
Lemma small_path_run :
  exists dets,
    small_path (Jittor.nms px) boxes b4nms scores thr =
    inr (dets, Jittor.nms px (concat_col b4nms scores) thr).
Proof.
  unfold small_path.
  rewrite nms_valid by (unfold valid_input; auto).
  simpl. rewrite NMSop_execute_plain. eexists. reflexivity.
Qed.

(** The large-input path keeps, in some order, what the suppressions
    over the single groups keep, cut to [max_num] entries when that is
    positive. *)
Lemma large_path_run max_num :
  exists keep scores',
    NoDup keep /\
    (forall i, i ∈ keep <->
       exists g, g ∈ idxs /\ i ∈ group_keeps px b4nms scores idxs thr g) /\
    large_path (Jittor.nms px) boxes b4nms scores idxs thr max_num =
    if Qlt_bool 0 (to_float max_num) then
      bind_r (to_index max_num)
        (fun n =>
           let k := Z.to_nat n in
           ret_r (concat_col
                    (mkVar2 (size1 (gather_rows keep boxes))
                            (take k (rows (gather_rows keep boxes))))
                    (take k scores'),
                  take k keep))
    else ret_r (concat_col (gather_rows keep boxes) scores', keep).
Proof.
  unfold large_path.
  destruct (group_loop_run px b4nms scores idxs thr H4 Hwf Hn Hidx (unique idxs)
              (map (fun _ => 0%Q) scores) (map (fun _ => 0%Q) scores))
    as (tm & sa & -> & Hlen & Hmark).
  simpl.
  set (keep0 := nonzero (as_mask tm)).
  set (unsorted := gather 0%Q keep0 sa).
  set (inds := Jittor.argsort_desc unsorted).
  assert (Hperm : gather 0 inds keep0 ≡ₚ keep0).
  { apply gather_perm. unfold inds. rewrite argsort_desc_perm.
    unfold unsorted. by rewrite length_gather. }
  exists (gather 0 inds keep0), (gather 0%Q inds unsorted).
  split; [| split; [| reflexivity]].
  - rewrite Hperm. apply NoDup_nonzero.
  - intros i. rewrite Hperm. unfold keep0. rewrite elem_of_nonzero.
    fold (marked tm i). rewrite Hmark. rewrite length_map. split.
    + intros [H | (_ & g & Hg & Hi)]; [by apply marked_zeros in H |].
      exists g. split; [by apply elem_of_unique | exact Hi].
    + intros (g & Hg & Hi). right. split.
      * by eapply group_keeps_lt.
      * exists g. split; [by apply elem_of_unique | exact Hi].
Qed.

End Paths.

Lemma valid_boxes_for_nms ca boxes scores idxs offset :
  valid_input boxes scores offset -> length idxs = size0 boxes ->
  size1 (boxes_for_nms ca boxes idxs) = 4 /\
  wf_Var2 (boxes_for_nms ca boxes idxs) /\
  size0 (boxes_for_nms ca boxes idxs) = length scores /\
  length idxs = length scores.
Proof.
  intros (H4 & Hwf & Hn & _) Hidx.
  rewrite size1_boxes_for_nms, size0_boxes_for_nms by done.
  split; [done |]. split; [by apply wf_boxes_for_nms |]. split; [done | lia].
Qed.

(** C9.  For boxes of shape (N, 4) with N scores (and N group ids, and a
    dictionary whose [max_num] can bound a slice), [nms] and [batched_nms]
    return a result, and the indices in it are pairwise distinct and
    smaller than N. *)
Theorem returned_indices_unique_in_range px boxes scores idxs thr offset st mn
    cfg p (h : heap) (m : dict) :
  valid_input boxes scores offset ->
  length idxs = size0 boxes ->
  h !! cfg = Some m ->
  int_max_num m ->
  (exists dets inds,
     nms (Jittor.nms px) boxes scores thr offset st mn = inr (dets, inds) /\
     NoDup inds /\ Forall (fun i => i < size0 boxes) inds) /\
  (exists dets keep,
     (batched_nms (Jittor.nms px) boxes scores idxs cfg p h).1 = inr (dets, keep) /\
     NoDup keep /\ Forall (fun i => i < size0 boxes) keep).
Proof.
  intros Hv Hidx Hm [n Hint]. split.
  - rewrite nms_valid by exact Hv.
    destruct (NMSop_execute_kept px boxes scores thr offset st mn Hv)
      as (Hnd & Hlt & _).
    destruct Hv as (_ & _ & Hn & _). rewrite Hn.
    eexists _, _. split; [reflexivity |]. by split.
  - rewrite (batched_nms_fst _ _ _ _ _ _ h m Hm). unfold batched_nms_of.
    set (ca := truthy (cfg_get m "class_agnostic" (PyBool p))).
    destruct (valid_boxes_for_nms ca boxes scores idxs offset Hv Hidx)
      as (H4' & Hwf' & Hn' & Hidx').
    destruct Hv as (_ & _ & Hn & _). rewrite Hn.
    destruct (Qlt_bool _ _).
    + destruct (small_path_run px boxes _ scores
                  (to_float (cfg_get m "iou_thr" (PyInt 0))) H4' Hwf' Hn')
        as [dets ->].
      eexists _, _. split; [reflexivity |].
      split; [apply NoDup_Jittor_nms |].
      apply Forall_forall. intros i Hi. apply Jittor_nms_lt in Hi.
      unfold size0, concat_col in Hi. simpl in Hi.
      rewrite length_zip_with in Hi. lia.
    + destruct (large_path_run px boxes _ scores idxs
                  (to_float (cfg_get m "iou_thr" (PyInt 0))) H4' Hwf' Hn' Hidx'
                  (cfg_get m "max_num" (PyInt (-1))))
        as (keep & scores' & Hnd & Hin & ->).
      assert (Hlt : Forall (fun i => i < length scores) keep).
      { apply Forall_forall. intros i Hi. apply Hin in Hi as (g & _ & Hi).
        by eapply group_keeps_lt. }
      rewrite Hint. simpl.
      destruct (Qlt_bool 0 _).
      * eexists _, _. split; [reflexivity |]. split.
        -- eapply sublist_NoDup; [exact Hnd | apply sublist_take].
        -- by apply Forall_take.
      * eexists _, _. split; [reflexivity |]. by split.
Qed.

Lemma returned_indices_unique_in_range_witness :
  let boxes := mkVar2 4 [[0; 0; 10; 10]; [1; 1; 10; 10]; [0; 0; 10; 10]]%Q in
  let scores := [3 # 10; 9 # 10; 8 # 10]%Q in
  let h : heap := [{[ "split_thr" := PyInt 2 ]}] in
  (exists dets inds,
     nms (Jittor.nms 1) boxes scores (1 # 2) 0 0 (-1) = inr (dets, inds) /\
     NoDup inds /\ Forall (fun i => i < 3) inds) /\
  (exists dets keep,
     (batched_nms (Jittor.nms 1) boxes scores [0; 1; 0]%Z 0 false h).1
       = inr (dets, keep) /\
     NoDup keep /\ Forall (fun i => i < 3) keep).
Proof.
  intros boxes scores h.
  apply (returned_indices_unique_in_range 1 boxes scores [0; 1; 0]%Z (1 # 2) 0 0
           (-1) 0 false h {[ "split_thr" := PyInt 2 ]}).
  - valid_input_by_computation.
  - reflexivity.
  - reflexivity.
  - exists (-1)%Z. reflexivity.
Defined.

Example batched_nms_large_path_example :
  kept (batched_nms (Jittor.nms 1)
          (mkVar2 4 [[0; 0; 10; 10]; [1; 1; 10; 10]; [0; 0; 10; 10]]%Q)
          [3 # 10; 9 # 10; 8 # 10]%Q [0; 1; 0]%Z 0 false
          [{[ "split_thr" := PyInt 2 ]}]).1 = [1; 2].
Proof. vm_compute. reflexivity. Qed.

Lemma cfg_get_insert_eq (m : dict) k v dflt : cfg_get (<[k := v]> m) k dflt = v.
Proof. unfold cfg_get. by rewrite lookup_insert_eq. Qed.

Lemma cfg_get_insert_ne (m : dict) k k' v dflt :
  k <> k' -> cfg_get (<[k := v]> m) k' dflt = cfg_get m k' dflt.
Proof. intros H. unfold cfg_get. by rewrite lookup_insert_ne. Qed.

Lemma Qlt_bool_false_iff a b : Qlt_bool a b = false <-> (b <= a)%Q.
Proof.
  unfold Qlt_bool. rewrite negb_false_iff. apply Qle_bool_iff.
Qed.

(** * The tie rule of the library's sort

    Which of two rows of equal score the library's sort puts first is not
    fixed.  With scores that are pairwise different there is one
    descending order only, and every descending sort returns it. *)

Lemma descending_argsort_desc : descending Jittor.argsort_desc.
Proof.
  intros x. split; [apply argsort_desc_perm | apply argsort_desc_sorted].
Qed.

Lemma descending_unique argsort x :
  descending argsort -> distinct x -> argsort x = Jittor.argsort_desc x.
Proof.
  intros Hd Hx. destruct (Hd x) as [Hperm Hsorted].
  apply (StronglySorted_unique_strong (by_key (fun i => nth i x 0%Q))).
  - intros i j Hi Hj Hij Hji.
    rewrite Hperm in Hi. rewrite argsort_desc_perm in Hj.
    apply elem_of_seq in Hi, Hj.
    apply Hx; [lia | lia |]. unfold by_key in Hij, Hji. by apply Qle_antisym.
  - exact Hsorted.
  - apply argsort_desc_sorted.
  - by rewrite Hperm, argsort_desc_perm.
Qed.

Lemma nms_by_distinct argsort px dets thr :
  descending argsort -> distinct (column 4 dets) ->
  Jittor.nms_by argsort px dets thr = Jittor.nms px dets thr.
Proof.
  intros Hd Hx. unfold Jittor.nms_by, Jittor.nms.
  by rewrite descending_unique.
Qed.

Lemma distinct_gather inds x :
  NoDup inds -> Forall (fun i => i < length x) inds -> distinct x ->
  distinct (gather 0%Q inds x).
Proof.
  intros Hnd Hlt Hx i j Hi Hj. rewrite length_gather in Hi, Hj.
  rewrite !nth_gather by done. intros Heq.
  rewrite Forall_forall in Hlt.
  apply Hx in Heq; [| by apply Hlt, nth_elem_of | by apply Hlt, nth_elem_of].
  apply (NoDup_lookup inds i j (nth i inds 0) Hnd).
  - by apply lookup_nth.
  - rewrite Heq. by apply lookup_nth.
Qed.

Lemma NMSop_execute_by argsort px boxes scores thr offset st mn :
  descending argsort -> valid_input boxes scores offset -> distinct scores ->
  NMSop_execute (Jittor.nms_by argsort px) boxes scores thr offset st mn =
  NMSop_execute (Jittor.nms px) boxes scores thr offset st mn.
Proof.
  intros Hd (H4 & Hwf & Hn & _) Hx. unfold NMSop_execute.
  rewrite nms_by_distinct; [reflexivity | exact Hd |].
  destruct (Qlt_bool 0 st).
  - unfold select_rows, select.
    assert (Hlt : Forall (fun i => i < length scores)
                    (nonzero (map (fun s => Qlt_bool st s) scores))).
    { apply Forall_forall. intros i Hi. apply nonzero_lt in Hi.
      by rewrite length_map in Hi. }
    rewrite column_concat_col_gather by (try done; by rewrite Hn).
    apply distinct_gather; [apply NoDup_nonzero | exact Hlt | exact Hx].
  - by rewrite column_concat_col.
Qed.

Lemma nms_by argsort px boxes scores thr offset st mn :
  descending argsort -> wf_Var2 boxes -> distinct scores ->
  nms (Jittor.nms_by argsort px) boxes scores thr offset st mn =
  nms (Jittor.nms px) boxes scores thr offset st mn.
Proof.
  intros Hd Hwf Hx. unfold nms.
  destruct (size1 boxes =? 4) eqn:E4; [| reflexivity].
  destruct (size0 boxes =? length scores) eqn:En; [| reflexivity].
  destruct ((offset =? 0)%Z || (offset =? 1)%Z) eqn:Eo; [| reflexivity].
  simpl. apply Nat.eqb_eq in E4, En.
  rewrite NMSop_execute_by; [reflexivity | done | | done].
  unfold valid_input. repeat split; try done.
  apply orb_true_iff in Eo as [Eo | Eo]; apply Z.eqb_eq in Eo; auto.
Qed.

Lemma group_loop_by argsort px b4nms scores idxs thr ids acc :
  descending argsort ->
  size1 b4nms = 4 -> wf_Var2 b4nms -> size0 b4nms = length scores ->
  length idxs = length scores -> distinct scores ->
  group_loop (Jittor.nms_by argsort px) b4nms scores idxs thr ids acc =
  group_loop (Jittor.nms px) b4nms scores idxs thr ids acc.
Proof.
  intros Hd H4 Hwf Hn Hidx Hx. unfold group_loop.
  generalize (@inr exn _ acc). intros r. revert r.
  induction ids as [| g ids IH]; intros r; cbn [fold_left]; [reflexivity |].
  rewrite IH. f_equal. destruct r as [e | [tm sa]]; unfold bind_r;
    [reflexivity |].
  unfold group_step. rewrite nms_by; [reflexivity | exact Hd | |].
  - by destruct (group_call_valid b4nms scores idxs H4 Hwf Hn Hidx g)
      as (_ & Hwf' & _).
  - apply distinct_gather; [apply NoDup_nonzero | | exact Hx].
    apply Forall_forall. intros i Hi. apply group_mask_lt in Hi. lia.
Qed.

(** With scores that are pairwise different, [batched_nms] returns the
    same for every descending sort inside the primitive. *)
Lemma batched_nms_of_by argsort px boxes scores idxs (m : dict) p :
  descending argsort ->
  valid_input boxes scores 0 -> length idxs = size0 boxes ->
  distinct scores ->
  batched_nms_of (Jittor.nms_by argsort px) boxes scores idxs m p =
  batched_nms_of (Jittor.nms px) boxes scores idxs m p.
Proof.
  intros Hd Hv Hidx Hx. unfold batched_nms_of.
  destruct (valid_boxes_for_nms
              (truthy (cfg_get m "class_agnostic" (PyBool p)))
              boxes scores idxs 0 Hv Hidx) as (H4' & Hwf' & Hn' & Hidx').
  destruct (Qlt_bool _ _).
  - unfold small_path. by rewrite nms_by.
  - unfold large_path. by rewrite group_loop_by.
Qed.

Lemma group_keeps_by_distinct argsort px boxes scores idxs thr g :
  descending argsort ->
  size1 boxes = 4 -> wf_Var2 boxes -> size0 boxes = length scores ->
  length idxs = length scores -> distinct scores ->
  group_keeps_by (Jittor.nms_by argsort px) boxes scores idxs thr g =
  group_keeps px boxes scores idxs thr g.
Proof.
  intros Hd H4 Hwf Hn Hidx Hx. unfold group_keeps_by, group_keeps.
  assert (Hlt : Forall (fun i => i < size0 boxes)
                  (nonzero (map (fun x => (x =? g)%Z) idxs))).
  { apply Forall_forall. intros i Hi. apply group_mask_lt in Hi. lia. }
  rewrite nms_by_distinct; [reflexivity | exact Hd |].
  rewrite column_concat_col_gather by done.
  apply distinct_gather; [apply NoDup_nonzero | by rewrite <- Hn | exact Hx].
Qed.

Ltac distinct_by_computation :=
  let i := fresh "i" in
  let j := fresh "j" in
  let Hi := fresh "Hi" in
  let Hj := fresh "Hj" in
  let H := fresh "H" in
  intros i j Hi Hj H; simpl in Hi, Hj;
  repeat (destruct i as [| i]; [| try lia]);
  repeat (destruct j as [| j]; [| try lia]);
  try reflexivity; try lia; vm_compute in H; discriminate H.

Ltac exact_offsets_by_computation :=
  unfold exact_offsets; cbn [rows]; split;
  repeat first [apply Forall_nil_2 | apply Forall_cons_2];
  vm_compute; first [reflexivity | discriminate].

(** With non-negative coordinates and a non-negative threshold, one
    suppression over the moved boxes keeps of each group exactly what the
    suppression over that group alone keeps: no box is suppressed by a box
    of another group. *)
Lemma per_class_kept px boxes scores idxs thr g :
  (px <= 1)%Q ->
  valid_input boxes scores 0 -> length idxs = size0 boxes ->
  non_negative boxes -> (0 <= thr)%Q ->
  let b4nms := boxes_for_nms false boxes idxs in
  group_keeps px b4nms scores idxs thr g =
  filter (in_group idxs g) (Jittor.nms px (concat_col b4nms scores) thr).
Proof.
  intros Hpx Hv Hidx Hnn Hthr b4nms.
  destruct (valid_boxes_for_nms false boxes scores idxs 0 Hv Hidx)
    as (H4' & Hwf' & Hn' & Hidx').
  destruct Hv as (H4 & Hwf & Hn & _).
  unfold group_keeps. apply group_kept; try done.
  intros j i Hj Hi Hne.
  apply cross_group_never_fails; try done; lia.
Qed.

(** C5, as the code has it.  For scores that are pairwise different and
    boxes with non-negative integer coordinates whose offsets stay within
    2^24 (so that neither the tie rule of the library's sort nor the
    rounding of the offsets plays a part), with class-agnostic suppression
    off, a non-negative [iou_thr] and no positive [max_num], two calls of
    [batched_nms] that differ in [split_thr] only, one taking the
    small-input path and one the large-input path, both return a result
    and keep the same indices up to order; and that for every descending
    sort inside the primitive. *)
Theorem paths_agree_per_class argsort px boxes scores idxs (m : dict) p
    (s_small s_large : pyval) (h1 h2 : heap) c1 c2 :
  descending argsort ->
  (px <= 1)%Q ->
  valid_input boxes scores 0 ->
  length idxs = size0 boxes ->
  h1 !! c1 = Some (<["split_thr" := s_small]> m) ->
  h2 !! c2 = Some (<["split_thr" := s_large]> m) ->
  (inject_Z (Z.of_nat (size0 boxes)) < to_float s_small)%Q ->
  (to_float s_large <= inject_Z (Z.of_nat (size0 boxes)))%Q ->
  distinct scores ->
  non_negative boxes ->
  exact_offsets boxes idxs ->
  truthy (cfg_get m "class_agnostic" (PyBool p)) = false ->
  (0 <= to_float (cfg_get m "iou_thr" (PyInt 0)))%Q ->
  (to_float (cfg_get m "max_num" (PyInt (-1))) <= 0)%Q ->
  exists d1 k1 d2 k2,
    (batched_nms (Jittor.nms_by argsort px) boxes scores idxs c1 p h1).1
      = inr (d1, k1) /\
    (batched_nms (Jittor.nms_by argsort px) boxes scores idxs c2 p h2).1
      = inr (d2, k2) /\
    k1 ≡ₚ k2 /\
    forall i,
      i ∈ kept (batched_nms (Jittor.nms_by argsort px) boxes scores idxs c1 p h1).1
      <->
      i ∈ kept (batched_nms (Jittor.nms_by argsort px) boxes scores idxs c2 p h2).1.
Proof.
  intros Hd Hpx Hv Hidx Hh1 Hh2 Hsmall Hlarge Hx Hnn _ Hca Hthr Hmax.
  rewrite (batched_nms_fst _ _ _ _ _ _ h1 _ Hh1).
  rewrite (batched_nms_fst _ _ _ _ _ _ h2 _ Hh2).
  rewrite !(batched_nms_of_by argsort) by done.
  unfold batched_nms_of.
  rewrite !cfg_get_insert_eq, !cfg_get_insert_ne by done.
  rewrite Hca.
  destruct (valid_boxes_for_nms false boxes scores idxs 0 Hv Hidx)
    as (H4' & Hwf' & Hn' & Hidx').
  rewrite size0_boxes_for_nms by done.
  apply Qlt_bool_iff in Hsmall. apply Qlt_bool_false_iff in Hlarge.
  rewrite Hsmall, Hlarge.
  set (thr := to_float (cfg_get m "iou_thr" (PyInt 0))) in *.
  destruct (small_path_run px boxes _ scores thr H4' Hwf' Hn') as [d1 ->].
  destruct (large_path_run px boxes _ scores idxs thr H4' Hwf' Hn' Hidx'
              (cfg_get m "max_num" (PyInt (-1))))
    as (k2 & scores' & Hnd & Hin & ->).
  apply Qlt_bool_false_iff in Hmax. rewrite Hmax.
  set (k1 := Jittor.nms px (concat_col (boxes_for_nms false boxes idxs) scores) thr).
  assert (Hsame : forall i, i ∈ k1 <-> i ∈ k2).
  { intros i. rewrite Hin. split.
    - intros Hi. exists (nth i idxs 0%Z).
      assert (Hlt : i < length idxs).
      { apply Jittor_nms_lt in Hi. unfold size0, concat_col in Hi.
        simpl in Hi. rewrite length_zip_with in Hi.
        unfold size0 in Hn'. lia. }
      split; [by apply list_elem_of_In, nth_In |].
      rewrite per_class_kept by done.
      apply list_elem_of_filter. split; [| exact Hi].
      by apply in_group_iff.
    - intros (g & _ & Hi). rewrite per_class_kept in Hi by done.
      by apply list_elem_of_filter in Hi as [_ Hi]. }
  eexists _, k1, _, k2. split; [reflexivity |]. split; [reflexivity |].
  split; [| exact Hsame].
  apply NoDup_Permutation; [apply NoDup_Jittor_nms | exact Hnd | exact Hsame].
Qed.

Lemma paths_agree_per_class_witness :
  let boxes := mkVar2 4 [[0; 0; 10; 10]; [0; 0; 10; 10]; [1; 1; 10; 10]]%Q in
  let scores := [9 # 10; 8 # 10; 7 # 10]%Q in
  exists d1 k1 d2 k2,
    (batched_nms (Jittor.nms_by Jittor.argsort_desc 1) boxes scores
       [0; 1; 0]%Z 0 false [<["split_thr" := PyInt 10000]> ∅]).1 = inr (d1, k1) /\
    (batched_nms (Jittor.nms_by Jittor.argsort_desc 1) boxes scores
       [0; 1; 0]%Z 0 false [<["split_thr" := PyInt 3]> ∅]).1 = inr (d2, k2) /\
    k1 ≡ₚ k2 /\
    forall i,
      i ∈ kept (batched_nms (Jittor.nms_by Jittor.argsort_desc 1) boxes scores
                  [0; 1; 0]%Z 0 false [<["split_thr" := PyInt 10000]> ∅]).1 <->
      i ∈ kept (batched_nms (Jittor.nms_by Jittor.argsort_desc 1) boxes scores
                  [0; 1; 0]%Z 0 false [<["split_thr" := PyInt 3]> ∅]).1.
Proof.
  intros boxes scores.
  apply (paths_agree_per_class Jittor.argsort_desc 1 boxes scores [0; 1; 0]%Z
           ∅ false (PyInt 10000) (PyInt 3)).
  - exact descending_argsort_desc.
  - vm_compute. discriminate.
  - valid_input_by_computation.
  - reflexivity.
  - reflexivity.
  - reflexivity.
  - vm_compute. reflexivity.
  - vm_compute. discriminate.
  - distinct_by_computation.
  - unfold non_negative. simpl.
    repeat (constructor; try (vm_compute; discriminate)).
  - exact_offsets_by_computation.
  - reflexivity.
  - vm_compute. discriminate.
  - vm_compute. discriminate.
Defined.

Example paths_agree_example :
  let boxes := mkVar2 4 [[0; 0; 10; 10]; [0; 0; 10; 10]; [1; 1; 10; 10]]%Q in
  let scores := [9 # 10; 8 # 10; 7 # 10]%Q in
  kept (batched_nms (Jittor.nms 1) boxes scores [0; 1; 0]%Z 0 false
          [<["split_thr" := PyInt 10000]> ∅]).1 = [0; 1] /\
  kept (batched_nms (Jittor.nms 1) boxes scores [0; 1; 0]%Z 0 false
          [<["split_thr" := PyInt 3]> ∅]).1 = [0; 1].
Proof. split; vm_compute; reflexivity. Qed.

(** C5, as the spec words it, fails, whichever of the two conventions the
    primitive follows: with [max_num] 1 in the dictionary and two boxes far
    apart, the small-input path does not read [max_num] and keeps both
    boxes, the large-input path keeps one. *)
Lemma paths_agree_fails : ~ paths_agree 1 /\ ~ paths_agree 0.
Proof.
  assert (Hv : valid_input (mkVar2 4 [[0; 0; 10; 10]; [20; 20; 30; 30]]%Q)
                 [9 # 10; 8 # 10]%Q 0) by valid_input_by_computation.
  assert (H1 : (inject_Z (Z.of_nat 2) < to_float (PyInt 10000))%Q)
    by (vm_compute; reflexivity).
  assert (H2 : (to_float (PyInt 1) <= inject_Z (Z.of_nat 2))%Q)
    by (vm_compute; discriminate).
  assert (Hin : 1 ∈ [0; 1]) by (right; left).
  split; intros H;
    specialize (H (mkVar2 4 [[0; 0; 10; 10]; [20; 20; 30; 30]]%Q)
                  [9 # 10; 8 # 10]%Q [0; 0]%Z
                  {[ "max_num" := PyInt 1 ]} false (PyInt 10000) (PyInt 1)
                  [<["split_thr" := PyInt 10000]> {[ "max_num" := PyInt 1 ]}]
                  [<["split_thr" := PyInt 1]> {[ "max_num" := PyInt 1 ]}]
                  0 0 Hv eq_refl eq_refl eq_refl H1 H2 1);
    vm_compute in H; destruct H as [H _]; specialize (H Hin);
    inversion H as [| ? ? ? Hnil]; inversion Hnil.
Qed.

Example max_num_only_on_large_path :
  let boxes := mkVar2 4 [[0; 0; 10; 10]; [20; 20; 30; 30]]%Q in
  let scores := [9 # 10; 8 # 10]%Q in
  kept (batched_nms (Jittor.nms 1) boxes scores [0; 0]%Z 0 false
          [<["split_thr" := PyInt 10000]> {[ "max_num" := PyInt 1 ]}]).1 = [0; 1] /\
  kept (batched_nms (Jittor.nms 1) boxes scores [0; 0]%Z 0 false
          [<["split_thr" := PyInt 1]> {[ "max_num" := PyInt 1 ]}]).1 = [0].
Proof. split; vm_compute; reflexivity. Qed.

(** * Group ids and suppression *)

(** On the small-input path a class-agnostic call does not look at the
    group ids. *)
Lemma class_agnostic_small_path jn boxes scores idxs idxs' (m : dict) p :
  truthy (cfg_get m "class_agnostic" (PyBool p)) = true ->
  Qlt_bool (inject_Z (Z.of_nat (size0 boxes)))
           (to_float (cfg_get m "split_thr" (PyInt 10000))) = true ->
  batched_nms_of jn boxes scores idxs m p =
  batched_nms_of jn boxes scores idxs' m p.
Proof.
  intros Hca Hsmall. unfold batched_nms_of. rewrite Hca. simpl.
  by rewrite Hsmall.
Qed.

(** C1, on the code.  Two coinciding boxes with negative coordinates and
    different group ids: the offset [group id * (max_coordinate + 1)] moves
    the second by 1 only, the moved boxes overlap and the small-input path
    suppresses the box of group 1 against the box of group 0, while the
    large-input path keeps both.  And with class-agnostic suppression on,
    the large-input path still suppresses group by group, so the group ids
    change what is kept.  Both hold under either convention of the
    primitive. *)
Theorem batched_nms_group_separation_defects :
  let neg := mkVar2 4 [[-10; -10; 0; 0]; [-10; -10; 0; 0]]%Q in
  let pos := mkVar2 4 [[0; 0; 10; 10]; [0; 0; 10; 10]]%Q in
  let scores := [9 # 10; 8 # 10]%Q in
  rows (boxes_for_nms false neg [0; 1]%Z) =
    [[-10; -10; 0; 0]; [-9; -9; 1; 1]]%Q /\
  Forall (fun px =>
    kept (batched_nms (Jittor.nms px) neg scores [0; 1]%Z 0 false [∅]).1
      = [0] /\
    kept (batched_nms (Jittor.nms px) neg scores [0; 1]%Z 0 false
            [{[ "split_thr" := PyInt 1 ]}]).1 = [0; 1] /\
    kept (batched_nms (Jittor.nms px) pos scores [0; 1]%Z 0 true
            [{[ "split_thr" := PyInt 1 ]}]).1 = [0; 1] /\
    kept (batched_nms (Jittor.nms px) pos scores [0; 0]%Z 0 true
            [{[ "split_thr" := PyInt 1 ]}]).1 = [0])
    [1%Q; 0%Q].
Proof.
  split; [vm_compute; reflexivity |].
  repeat constructor; vm_compute; reflexivity.
Qed.

(** * Settings that switch a step off *)

Lemma truncate_nonpos {A} mn (l : list A) : (mn <= 0)%Z -> truncate mn l = l.
Proof.
  intros H. unfold truncate.
  destruct (0 <? mn)%Z eqn:E; [| reflexivity].
  apply Z.ltb_lt in E. lia.
Qed.

(** X1.  A [score_threshold] that is not positive filters nothing, also
    when scores lie below it, and a [max_num] that is not positive (0
    included) bounds nothing: the call returns what it returns with the
    defaults 0 and -1. *)
Theorem nms_nonpositive_settings jn boxes scores thr offset st mn :
  (st <= 0)%Q ->
  (mn <= 0)%Z ->
  nms jn boxes scores thr offset st mn = nms jn boxes scores thr offset 0 (-1).
Proof.
  intros Hst Hmn. unfold nms, NMSop_execute.
  apply Qlt_bool_false_iff in Hst. rewrite Hst.
  rewrite truncate_nonpos by exact Hmn. reflexivity.
Qed.

Lemma nms_nonpositive_settings_witness :
  let boxes := mkVar2 4 [[0; 0; 10; 10]; [20; 20; 30; 30]]%Q in
  let scores := [-(3); -(1)]%Q in
  nms (Jittor.nms 1) boxes scores (1 # 2) 0 (-(2)) 0 =
  nms (Jittor.nms 1) boxes scores (1 # 2) 0 0 (-1) /\
  kept (nms (Jittor.nms 1) boxes scores (1 # 2) 0 (-(2)) 0) = [1; 0].
Proof.
  intros boxes scores. split.
  - apply (nms_nonpositive_settings (Jittor.nms 1) boxes scores (1 # 2) 0
             (-(2)) 0).
    + vm_compute. discriminate.
    + lia.
  - vm_compute. reflexivity.
Defined.

(** * Reading the dictionary *)

Lemma batched_nms_of_ext jn boxes scores idxs (m m' : dict) p :
  cfg_get m' "class_agnostic" (PyBool p) = cfg_get m "class_agnostic" (PyBool p) ->
  cfg_get m' "iou_thr" (PyInt 0) = cfg_get m "iou_thr" (PyInt 0) ->
  cfg_get m' "split_thr" (PyInt 10000) = cfg_get m "split_thr" (PyInt 10000) ->
  cfg_get m' "max_num" (PyInt (-1)) = cfg_get m "max_num" (PyInt (-1)) ->
  batched_nms_of jn boxes scores idxs m' p = batched_nms_of jn boxes scores idxs m p.
Proof.
  intros H1 H2 H3 H4. unfold batched_nms_of. by rewrite H1, H2, H3, H4.
Qed.

(** X2.  Only the keys [class_agnostic], [iou_thr], [split_thr] and
    [max_num] are read: an entry under any other key changes nothing in
    what [batched_nms] returns, and is not an error. *)
Theorem batched_nms_ignores_unknown_keys jn boxes scores idxs p
    (h h' : heap) cfg cfg' (m : dict) key v :
  key <> "class_agnostic" -> key <> "iou_thr" ->
  key <> "split_thr" -> key <> "max_num" ->
  h !! cfg = Some m ->
  h' !! cfg' = Some (<[key := v]> m) ->
  (batched_nms jn boxes scores idxs cfg' p h').1 =
  (batched_nms jn boxes scores idxs cfg p h).1.
Proof.
  intros K1 K2 K3 K4 Hm Hm'.
  rewrite (batched_nms_fst _ _ _ _ _ _ h' _ Hm').
  rewrite (batched_nms_fst _ _ _ _ _ _ h _ Hm).
  apply batched_nms_of_ext; by apply cfg_get_insert_ne.
Qed.

Lemma batched_nms_ignores_unknown_keys_witness :
  let boxes := mkVar2 4 [[0; 0; 10; 10]; [1; 1; 10; 10]]%Q in
  let scores := [9 # 10; 8 # 10]%Q in
  (batched_nms (Jittor.nms 1) boxes scores [0; 0]%Z 0 false
     [<["type" := PyInt 7]> {[ "iou_thr" := PyFloat (1 # 2) ]}]).1 =
  (batched_nms (Jittor.nms 1) boxes scores [0; 0]%Z 0 false
     [{[ "iou_thr" := PyFloat (1 # 2) ]}]).1.
Proof.
  intros boxes scores.
  apply (batched_nms_ignores_unknown_keys (Jittor.nms 1) boxes scores [0; 0]%Z
           false [{[ "iou_thr" := PyFloat (1 # 2) ]}] _ 0 0
           {[ "iou_thr" := PyFloat (1 # 2) ]} "type" (PyInt 7));
    (reflexivity || (intros E; discriminate E)).
Defined.

(** X3.  The small-input path never reads [max_num]: when the number of
    boxes is below [split_thr], a [max_num] entry, whatever its value,
    changes nothing in what [batched_nms] returns. *)
Theorem small_path_ignores_max_num jn boxes scores idxs p
    (h h' : heap) cfg cfg' (m : dict) v :
  length idxs = size0 boxes ->
  h !! cfg = Some m ->
  h' !! cfg' = Some (<["max_num" := v]> m) ->
  (inject_Z (Z.of_nat (size0 boxes))
   < to_float (cfg_get m "split_thr" (PyInt 10000)))%Q ->
  (batched_nms jn boxes scores idxs cfg' p h').1 =
  (batched_nms jn boxes scores idxs cfg p h).1.
Proof.
  intros Hidx Hm Hm' Hsmall.
  rewrite (batched_nms_fst _ _ _ _ _ _ h' _ Hm').
  rewrite (batched_nms_fst _ _ _ _ _ _ h _ Hm).
  unfold batched_nms_of.
  rewrite !cfg_get_insert_ne by done.
  rewrite size0_boxes_for_nms by done.
  apply Qlt_bool_iff in Hsmall. by rewrite Hsmall.
Qed.

Lemma small_path_ignores_max_num_witness :
  let boxes := mkVar2 4 [[0; 0; 10; 10]; [20; 20; 30; 30]]%Q in
  let scores := [9 # 10; 8 # 10]%Q in
  (batched_nms (Jittor.nms 1) boxes scores [0; 0]%Z 0 false
     [<["max_num" := PyInt 1]> ∅]).1 =
  (batched_nms (Jittor.nms 1) boxes scores [0; 0]%Z 0 false [∅]).1.
Proof.
  intros boxes scores.
  apply (small_path_ignores_max_num (Jittor.nms 1) boxes scores [0; 0]%Z
           false [∅] _ 0 0 ∅ (PyInt 1)).
  - reflexivity.
  - reflexivity.
  - reflexivity.
  - vm_compute. reflexivity.
Defined.

(** X4.  On the large-input path a positive integer [max_num] cuts the
    result to its first [max_num] entries, rows and indices alike: the call
    returns the truncation of what the same call returns without a positive
    [max_num], and an exception if that call raises one. *)
Theorem large_path_max_num jn boxes scores idxs p
    (h h' : heap) cfg cfg' (m : dict) n :
  length idxs = size0 boxes ->
  h !! cfg = Some m ->
  h' !! cfg' = Some (<["max_num" := PyInt n]> m) ->
  (to_float (cfg_get m "max_num" (PyInt (-1))) <= 0)%Q ->
  (0 < n)%Z ->
  (to_float (cfg_get m "split_thr" (PyInt 10000))
   <= inject_Z (Z.of_nat (size0 boxes)))%Q ->
  (batched_nms jn boxes scores idxs cfg' p h').1 =
  bind_r (batched_nms jn boxes scores idxs cfg p h).1
    (fun '(dets, keep) =>
       inr (mkVar2 (size1 dets) (take (Z.to_nat n) (rows dets)),
            take (Z.to_nat n) keep)).
Proof.
  intros Hidx Hm Hm' Hmax Hn Hlarge.
  rewrite (batched_nms_fst _ _ _ _ _ _ h' _ Hm').
  rewrite (batched_nms_fst _ _ _ _ _ _ h _ Hm).
  unfold batched_nms_of.
  rewrite cfg_get_insert_eq, !cfg_get_insert_ne by done.
  rewrite size0_boxes_for_nms by done.
  apply Qlt_bool_false_iff in Hlarge. rewrite Hlarge.
  unfold large_path.
  destruct (group_loop _ _ _ _ _ _ _) as [e | [tm sa]]; simpl; [reflexivity |].
  apply Qlt_bool_false_iff in Hmax. rewrite Hmax.
  assert (Hpos : Qlt_bool 0 (inject_Z n) = true).
  { apply Qlt_bool_iff. change 0%Q with (inject_Z 0). rewrite <- Zlt_Qlt. lia. }
  rewrite Hpos. simpl. unfold ret_r, concat_col. simpl.
  by rewrite zip_with_take.
Qed.

Lemma large_path_max_num_witness :
  let boxes := mkVar2 4 [[0; 0; 10; 10]; [20; 20; 30; 30]; [40; 40; 50; 50]]%Q in
  let scores := [7 # 10; 9 # 10; 8 # 10]%Q in
  kept (batched_nms (Jittor.nms 1) boxes scores [0; 1; 0]%Z 0 false
          [<["max_num" := PyInt 2]> {[ "split_thr" := PyInt 1 ]}]).1 = [1; 2] /\
  kept (batched_nms (Jittor.nms 1) boxes scores [0; 1; 0]%Z 0 false
          [{[ "split_thr" := PyInt 1 ]}]).1 = [1; 2; 0].
Proof.
  intros boxes scores.
  pose proof (large_path_max_num (Jittor.nms 1) boxes scores [0; 1; 0]%Z false
                [{[ "split_thr" := PyInt 1 ]}]
                [<["max_num" := PyInt 2]> {[ "split_thr" := PyInt 1 ]}]
                0 0 {[ "split_thr" := PyInt 1 ]} 2) as H.
  assert (H' := H eq_refl eq_refl eq_refl).
  clear H. rewrite H'.
  - split; vm_compute; reflexivity.
  - vm_compute. discriminate.
  - lia.
  - vm_compute. discriminate.
Defined.

(** * Boxes of the wrong width *)

Lemma group_loop_raised jn b4nms scores idxs thr ids e :
  fold_left
    (fun r id =>
       bind_r r (fun acc => group_step jn b4nms scores idxs thr acc id))
    ids (inl e) = inl e.
Proof. induction ids as [| g ids IH]; simpl; [reflexivity | exact IH]. Qed.

Lemma unique_nonempty idxs : idxs <> [] -> unique idxs <> [].
Proof.
  destruct idxs as [| z idxs]; [done |]. intros _ Hnil.
  assert (Hz : z ∈ unique (z :: idxs)) by (apply elem_of_unique; left).
  rewrite Hnil in Hz. by apply elem_of_nil in Hz.
Qed.

(** X5.  [batched_nms] passes on the assertion of [nms]: N >= 1 boxes that
    do not have 4 columns, with N scores and N group ids, are refused on
    both paths, under every configuration. *)
Theorem batched_nms_rejects_wrong_width jn boxes scores idxs cfg p
    (h : heap) (m : dict) :
  wf_Var2 boxes ->
  size0 boxes = length scores ->
  length idxs = size0 boxes ->
  size1 boxes <> 4 ->
  idxs <> [] ->
  h !! cfg = Some m ->
  (batched_nms jn boxes scores idxs cfg p h).1 = inl AssertionError.
Proof.
  intros _ _ _ H4 Hne Hm.
  rewrite (batched_nms_fst _ _ _ _ _ _ h _ Hm). unfold batched_nms_of.
  set (b4nms := boxes_for_nms _ boxes idxs).
  assert (H4' : (size1 b4nms =? 4) = false).
  { unfold b4nms. rewrite size1_boxes_for_nms. by apply Nat.eqb_neq. }
  destruct (Qlt_bool _ _).
  - unfold small_path, nms. by rewrite H4'.
  - unfold large_path, group_loop.
    destruct (unique idxs) as [| g ids] eqn:E;
      [by apply unique_nonempty in E |].
    simpl. unfold nms at 1. simpl. rewrite H4'. simpl.
    by rewrite group_loop_raised.
Qed.

Lemma batched_nms_rejects_wrong_width_witness :
  (batched_nms (Jittor.nms 1) (mkVar2 5 [[0; 0; 10; 10; 1]%Q]) [9 # 10]%Q
     [0]%Z 0 false [∅]).1 = inl AssertionError /\
  (batched_nms (Jittor.nms 1) (mkVar2 5 [[0; 0; 10; 10; 1]%Q]) [9 # 10]%Q
     [0]%Z 0 false [{[ "split_thr" := PyInt 1 ]}]).1 = inl AssertionError.
Proof.
  split.
  - apply (batched_nms_rejects_wrong_width (Jittor.nms 1) _ _ _ 0 false [∅] ∅);
      [by repeat constructor | reflexivity | reflexivity | simpl; lia
      | discriminate | reflexivity].
  - apply (batched_nms_rejects_wrong_width (Jittor.nms 1) _ _ _ 0 false
             [{[ "split_thr" := PyInt 1 ]}] {[ "split_thr" := PyInt 1 ]});
      [by repeat constructor | reflexivity | reflexivity | simpl; lia
      | discriminate | reflexivity].
Defined.

(** * Calls in sequence *)

(** X6.  A dictionary can be used for call after call: since the pops go to
    a copy, a call of [batched_nms] on the store that an earlier call left
    behind returns what it returns on the store before that call. *)
Theorem batched_nms_config_reusable jn boxes scores idxs p boxes' scores' idxs'
    p' cfg (h : heap) (m : dict) :
  h !! cfg = Some m ->
  (batched_nms jn boxes' scores' idxs' cfg p'
     (batched_nms jn boxes scores idxs cfg p h).2).1 =
  (batched_nms jn boxes' scores' idxs' cfg p' h).1.
Proof.
  intros Hm.
  destruct (batched_nms_run jn boxes scores idxs cfg p h) as [priv Hrun].
  rewrite Hrun. simpl.
  rewrite (batched_nms_fst _ _ _ _ _ _ (h ++ [priv]) m).
  - by rewrite (batched_nms_fst _ _ _ _ _ _ h m Hm).
  - rewrite lookup_app_l by (eapply lookup_lt_Some; eauto). exact Hm.
Qed.

Lemma batched_nms_config_reusable_witness :
  let boxes := mkVar2 4 [[0; 0; 10; 10]; [1; 1; 10; 10]]%Q in
  let scores := [9 # 10; 8 # 10]%Q in
  let h : heap := [{[ "iou_thr" := PyFloat (9 # 10) ]}] in
  (batched_nms (Jittor.nms 1) boxes scores [0; 0]%Z 0 false
     (batched_nms (Jittor.nms 1) boxes scores [0; 0]%Z 0 false h).2).1 =
  (batched_nms (Jittor.nms 1) boxes scores [0; 0]%Z 0 false h).1.
Proof.
  intros boxes scores h.
  apply (batched_nms_config_reusable (Jittor.nms 1) boxes scores [0; 0]%Z false
           boxes scores [0; 0]%Z false 0 h {[ "iou_thr" := PyFloat (9 # 10) ]}).
  reflexivity.
Defined.

(** * Group ids under class-agnostic suppression *)

(** X7.  On the small-input path a class-agnostic call never looks at the
    group ids: any two arrays of ids give the same result. *)
Theorem class_agnostic_ignores_group_ids jn boxes scores idxs idxs' cfg p
    (h : heap) (m : dict) :
  h !! cfg = Some m ->
  truthy (cfg_get m "class_agnostic" (PyBool p)) = true ->
  (inject_Z (Z.of_nat (size0 boxes))
   < to_float (cfg_get m "split_thr" (PyInt 10000)))%Q ->
  (batched_nms jn boxes scores idxs cfg p h).1 =
  (batched_nms jn boxes scores idxs' cfg p h).1.
Proof.
  intros Hm Hca Hsmall.
  rewrite !(batched_nms_fst _ _ _ _ _ _ h _ Hm).
  apply class_agnostic_small_path; [exact Hca |].
  by apply Qlt_bool_iff.
Qed.

Lemma class_agnostic_ignores_group_ids_witness :
  let boxes := mkVar2 4 [[0; 0; 10; 10]; [1; 1; 10; 10]]%Q in
  let scores := [9 # 10; 8 # 10]%Q in
  (batched_nms (Jittor.nms 1) boxes scores [0; 1]%Z 0 true [∅]).1 =
  (batched_nms (Jittor.nms 1) boxes scores [5; 5]%Z 0 true [∅]).1.
Proof.
  intros boxes scores.
  apply (class_agnostic_ignores_group_ids (Jittor.nms 1) boxes scores
           [0; 1]%Z [5; 5]%Z 0 true [∅] ∅).
  - reflexivity.
  - reflexivity.
  - vm_compute. reflexivity.
Defined.

(** * The kept sequence, position by position *)

Lemma gather_truncate {A} (d : A) mn inds (x : list A) :
  gather d (truncate mn inds) x = truncate mn (gather d inds x).
Proof.
  unfold truncate. destruct (0 <? mn)%Z; [| reflexivity].
  unfold gather. symmetry. apply firstn_map.
Qed.

Lemma concat_col_full boxes scores :
  concat_col (gather_rows (seq 0 (size0 boxes)) boxes)
             (gather 0%Q (seq 0 (length scores)) scores) =
  concat_col boxes scores.
Proof.
  unfold gather_rows, size0. rewrite !gather_seq. by destruct boxes.
Qed.

Lemma StronglySorted_seq (R : relation nat) s n :
  (forall p q, s <= p -> p < q -> q < s + n -> R p q) ->
  StronglySorted R (seq s n).
Proof.
  revert s. induction n as [| n IH]; intros s HR; simpl; [constructor |].
  constructor.
  - apply IH. intros p q Hp Hpq Hq. apply HR; lia.
  - apply Forall_forall. intros q Hq. apply elem_of_seq in Hq. apply HR; lia.
Qed.

Lemma nonzero_ascending mask : StronglySorted lt (nonzero mask).
Proof.
  unfold nonzero. eapply StronglySorted_sublist; [apply sublist_filter |].
  apply StronglySorted_seq. intros p q _ Hpq _. exact Hpq.
Qed.

(** What [NMSop.execute] returns on a valid input: the candidate filter run
    over the positions that get past the score filter, best score first,
    then cut to [max_num]. *)
Lemma NMSop_execute_loop px boxes scores thr offset st :
  valid_input boxes scores offset ->
  exists sub,
    NoDup sub /\
    StronglySorted lt sub /\
    (forall i, i ∈ sub <-> survivor scores st i) /\
    forall mn,
      NMSop_execute (Jittor.nms px) boxes scores thr offset st mn =
      truncate mn
        (Jittor.candidate_loop (pair_fail px (rows (concat_col boxes scores)) thr)
           (Jittor.sort_desc (fun i => nth i scores 0%Q) sub) []).
Proof.
  intros (H4 & Hwf & Hn & Ho). unfold NMSop_execute.
  destruct (Qlt_bool 0 st) eqn:Est.
  - set (valid_inds := nonzero (map (fun s => Qlt_bool st s) scores)).
    assert (Hin : forall i, i ∈ valid_inds <->
                    i < length scores /\ (st < nth i scores 0)%Q).
    { intros i. unfold valid_inds.
      by rewrite (elem_of_nonzero_map _ _ 0%Q), Qlt_bool_iff. }
    apply Qlt_bool_iff in Est.
    exists valid_inds. split; [apply NoDup_nonzero |].
    split; [apply nonzero_ascending |]. split.
    + intros i. rewrite Hin. unfold survivor. tauto.
    + intros mn. rewrite gather_truncate. f_equal.
      unfold select_rows, select. fold valid_inds.
      apply Jittor_nms_gathered; try done.
      apply Forall_forall. intros i Hi. by apply Hin in Hi as [Hi _].
  - apply Qlt_bool_false_iff in Est.
    exists (seq 0 (length scores)). split; [apply NoDup_seq |].
    split; [apply StronglySorted_seq; intros p q _ Hpq _; exact Hpq |]. split.
    + intros i. rewrite elem_of_seq. unfold survivor. split.
      * intros Hi. split; [lia |]. intros Hpos. exfalso.
        eapply Qlt_not_le; eauto.
      * intros [Hi _]. lia.
    + intros mn. f_equal.
      rewrite <- (Jittor_nms_gathered px boxes scores thr H4 Hwf Hn
                    (seq 0 (length scores))).
      * rewrite <- Hn at 1. rewrite concat_col_full.
        symmetry. apply gather_id.
        apply Forall_forall. intros k Hk. apply Jittor_nms_lt in Hk.
        unfold size0, concat_col in Hk. simpl in Hk.
        rewrite length_zip_with in Hk. unfold size0 in Hn. lia.
      * apply Forall_forall. intros i Hi. apply elem_of_seq in Hi. lia.
Qed.

Lemma candidate_loop_nil fail y : Jittor.candidate_loop fail [] y = y.
Proof. reflexivity. Qed.

Lemma candidate_loop_head fail a todo :
  exists k, Jittor.candidate_loop fail (a :: todo) [] = a :: k.
Proof.
  unfold Jittor.candidate_loop. simpl.
  destruct (candidate_loop_extends fail todo [a]) as (k & Hk & _).
  exists k. exact Hk.
Qed.

Lemma truncate_head {A} mn (a : A) l :
  exists k, truncate mn (a :: l) = a :: k.
Proof.
  unfold truncate. destruct (0 <? mn)%Z eqn:E; [| by exists l].
  apply Z.ltb_lt in E. destruct (Z.to_nat mn) as [| n] eqn:En; [lia |].
  simpl. by eexists.
Qed.

(** X8.  When no box gets past the score filter (there is no box, or the
    threshold is positive and no score exceeds it), [nms] raises nothing
    and returns no row and no index. *)
Theorem nms_no_survivor px boxes scores thr offset st mn :
  valid_input boxes scores offset ->
  (forall i, ~ survivor scores st i) ->
  nms (Jittor.nms px) boxes scores thr offset st mn = inr (mkVar2 5 [], []).
Proof.
  intros Hv Hnone. rewrite nms_valid by exact Hv.
  destruct (NMSop_execute_loop px boxes scores thr offset st Hv)
    as (sub & _ & _ & Hsub & Hex).
  assert (Hnil : sub = []).
  { destruct sub as [| i sub]; [reflexivity |]. exfalso.
    apply (Hnone i), Hsub. by left. }
  subst sub. simpl. rewrite Hex. simpl.
  destruct Hv as (H4 & _). unfold truncate.
  destruct (0 <? mn)%Z; simpl; unfold concat_col, gather_rows; simpl;
    by rewrite ?firstn_nil, H4.
Qed.

Lemma nms_no_survivor_witness :
  nms (Jittor.nms 1) (mkVar2 4 []) [] (1 # 2) 0 0 (-1) = inr (mkVar2 5 [], []) /\
  nms (Jittor.nms 1) (mkVar2 4 [[0; 0; 10; 10]; [20; 20; 30; 30]]%Q)
    [3 # 10; 5 # 10]%Q (1 # 2) 1 (1 # 2) 3 = inr (mkVar2 5 [], []).
Proof.
  split.
  - apply nms_no_survivor; [valid_input_by_computation |].
    intros i [Hi _]. simpl in Hi. lia.
  - apply nms_no_survivor; [valid_input_by_computation |].
    intros i [Hi Hs]. simpl in Hi.
    assert (Hpos : (0 < 1 # 2)%Q) by reflexivity. specialize (Hs Hpos).
    destruct i as [| [| i]]; simpl in *; [| | lia];
      vm_compute in Hs; discriminate Hs.
Defined.

Lemma sort_desc_head_max key l a rest :
  Jittor.sort_desc key l = a :: rest ->
  a ∈ l /\ forall j, j ∈ l -> (key j <= key a)%Q.
Proof.
  intros Hs.
  assert (Hperm : a :: rest ≡ₚ l) by (rewrite <- Hs; apply sort_desc_perm).
  pose proof (sort_desc_sorted key l) as Hsorted. rewrite Hs in Hsorted.
  apply StronglySorted_cons in Hsorted as [Ha _].
  split; [rewrite <- Hperm; by left |].
  intros j Hj. rewrite <- Hperm in Hj.
  apply elem_of_cons in Hj as [-> | Hj]; [apply Qle_refl |].
  rewrite Forall_forall in Ha. by apply Ha.
Qed.

(** X9.  When some box gets past the score filter, the result of [nms] is
    not empty, whatever [max_num] is (0 included), and starts with a box
    of the largest score among those that got past the filter: the best
    box is never suppressed. *)
Theorem nms_keeps_best px boxes scores thr offset st mn i :
  valid_input boxes scores offset ->
  survivor scores st i ->
  exists dets best rest,
    nms (Jittor.nms px) boxes scores thr offset st mn = inr (dets, best :: rest) /\
    survivor scores st best /\
    forall j, survivor scores st j -> (nth j scores 0 <= nth best scores 0)%Q.
Proof.
  intros Hv Hi. rewrite nms_valid by exact Hv.
  destruct (NMSop_execute_loop px boxes scores thr offset st Hv)
    as (sub & _ & _ & Hsub & Hex).
  simpl. rewrite Hex.
  destruct (Jittor.sort_desc (fun i0 => nth i0 scores 0%Q) sub) as [| a order]
    eqn:Eorder.
  - exfalso. apply Hsub in Hi.
    rewrite <- (sort_desc_perm (fun i0 => nth i0 scores 0%Q)) in Hi.
    rewrite Eorder in Hi. by apply elem_of_nil in Hi.
  - apply sort_desc_head_max in Eorder as [Ha Hmax].
    destruct (candidate_loop_head
                (pair_fail px (rows (concat_col boxes scores)) thr) a order)
      as [k ->].
    destruct (truncate_head mn a k) as [k' ->].
    eexists _, a, k'. split; [reflexivity |]. split; [by apply Hsub |].
    intros j Hj. by apply Hmax, Hsub.
Qed.

Lemma nms_keeps_best_witness :
  exists dets best rest,
    nms (Jittor.nms 1)
      (mkVar2 4 [[0; 0; 10; 10]; [1; 1; 10; 10]; [20; 20; 30; 30]]%Q)
      [3 # 10; 9 # 10; 8 # 10]%Q (1 # 2) 0 0 (-1) = inr (dets, best :: rest) /\
    survivor [3 # 10; 9 # 10; 8 # 10]%Q 0 best /\
    forall j, survivor [3 # 10; 9 # 10; 8 # 10]%Q 0 j ->
      (nth j [3 # 10; 9 # 10; 8 # 10]%Q 0 <= nth best [3 # 10; 9 # 10; 8 # 10]%Q 0)%Q.
Proof.
  apply (nms_keeps_best 1 _ _ (1 # 2) 0 0 (-1) 0).
  - valid_input_by_computation.
  - split; [simpl; lia |]. intros H. vm_compute in H. discriminate H.
Defined.

(** X10.  Every index [nms] returns is a position that got past the score
    filter: with a positive [score_threshold], every returned box has a
    score above it. *)
Theorem nms_returns_survivors px boxes scores thr offset st mn :
  valid_input boxes scores offset ->
  exists dets inds,
    nms (Jittor.nms px) boxes scores thr offset st mn = inr (dets, inds) /\
    Forall (survivor scores st) inds.
Proof.
  intros Hv. rewrite nms_valid by exact Hv.
  destruct (NMSop_execute_loop px boxes scores thr offset st Hv)
    as (sub & _ & _ & Hsub & Hex).
  eexists _, _. split; [reflexivity |]. rewrite Hex.
  apply Forall_forall. intros i Hi. apply Hsub.
  eapply elem_of_sublist in Hi; [| apply truncate_sublist].
  eapply elem_of_sublist in Hi; [| apply candidate_loop_sublist].
  by rewrite sort_desc_perm in Hi.
Qed.

Lemma nms_returns_survivors_witness :
  exists dets inds,
    nms (Jittor.nms 1)
      (mkVar2 4 [[0; 0; 10; 10]; [1; 1; 10; 10]; [20; 20; 30; 30]]%Q)
      [3 # 10; 9 # 10; 8 # 10]%Q (1 # 2) 0 (1 # 2) (-1) = inr (dets, inds) /\
    Forall (survivor [3 # 10; 9 # 10; 8 # 10]%Q (1 # 2)) inds.
Proof.
  apply (nms_returns_survivors 1 _ _ (1 # 2) 0 (1 # 2) (-1)).
  valid_input_by_computation.
Defined.

(** * No two kept boxes overlap too much *)

Lemma candidate_loop_apart fail todo y :
  StronglySorted (fun j i => fail j i = false) y ->
  StronglySorted (fun j i => fail j i = false) (Jittor.candidate_loop fail todo y).
Proof.
  revert y. induction todo as [| i todo IH]; intros y Hy; [exact Hy |].
  unfold Jittor.candidate_loop. simpl. unfold Jittor.select_next.
  destruct (existsb (fun j => fail j i) y) eqn:E; [by apply IH |].
  apply IH. apply StronglySorted_app. split; [| split].
  - intros j i' Hj Hi'. apply list_elem_of_singleton in Hi' as ->.
    destruct (fail j i) eqn:Ef; [| reflexivity].
    assert (Hex : existsb (fun j0 => fail j0 i) y = true).
    { apply existsb_exists. exists j. split; [by apply list_elem_of_In | exact Ef]. }
    congruence.
  - exact Hy.
  - repeat constructor.
Qed.

Lemma iou_sym px a b : (Jittor.iou px a b == Jittor.iou px b a)%Q.
Proof.
  unfold Jittor.iou, Jittor.inter, Jittor.inter_w, Jittor.inter_h.
  rewrite (Q.min_comm (nth 2 a 0%Q) (nth 2 b 0%Q)).
  rewrite (Q.max_comm (nth 0 a 0%Q) (nth 0 b 0%Q)).
  rewrite (Q.min_comm (nth 3 a 0%Q) (nth 3 b 0%Q)).
  rewrite (Q.max_comm (nth 1 a 0%Q) (nth 1 b 0%Q)).
  rewrite (Qplus_comm (Jittor.area px a) (Jittor.area px b)). reflexivity.
Qed.

Lemma iou_row px (r r' : list Q) (s s' : Q) :
  length r = 4 -> length r' = 4 ->
  Jittor.iou px (r ++ [s]) (r' ++ [s']) = Jittor.iou px r r'.
Proof.
  intros Hr Hr'.
  destruct r as [| a0 [| a1 [| a2 [| a3 [| ? ?]]]]]; try discriminate Hr.
  destruct r' as [| b0 [| b1 [| b2 [| b3 [| ? ?]]]]]; try discriminate Hr'.
  reflexivity.
Qed.

Lemma pair_fail_false px boxes scores thr j i :
  size1 boxes = 4 -> wf_Var2 boxes -> size0 boxes = length scores ->
  j < length scores -> i < length scores ->
  pair_fail px (rows (concat_col boxes scores)) thr j i = false <->
  (Jittor.iou px (box boxes j) (box boxes i) <= thr)%Q.
Proof.
  intros H4 Hwf Hn Hj Hi. unfold pair_fail, Jittor.fail_cond, box.
  rewrite !row_concat_col by lia.
  rewrite iou_row by (rewrite wf_row; done || lia).
  rewrite negb_false_iff. apply Qle_bool_iff.
Qed.

(** X11.  Any two different boxes that [nms] keeps overlap by no more than
    the threshold: their IoU (in the primitive's convention) is at most
    [iou_threshold]. *)
Theorem nms_kept_boxes_apart px boxes scores thr offset st mn :
  valid_input boxes scores offset ->
  exists dets inds,
    nms (Jittor.nms px) boxes scores thr offset st mn = inr (dets, inds) /\
    forall a b, a ∈ inds -> b ∈ inds -> a <> b ->
      (Jittor.iou px (box boxes a) (box boxes b) <= thr)%Q.
Proof.
  intros Hv. rewrite nms_valid by exact Hv.
  destruct (NMSop_execute_kept px boxes scores thr offset st mn Hv)
    as (_ & Hlt & _).
  destruct (NMSop_execute_loop px boxes scores thr offset st Hv)
    as (sub & _ & _ & Hsub & Hex).
  eexists _, _. split; [reflexivity |].
  rewrite Hex in *. destruct Hv as (H4 & Hwf & Hn & _).
  set (fail := pair_fail px (rows (concat_col boxes scores)) thr) in *.
  assert (Hsorted : StronglySorted (fun j i => fail j i = false)
            (truncate mn (Jittor.candidate_loop fail
               (Jittor.sort_desc (fun i => nth i scores 0%Q) sub) []))).
  { eapply StronglySorted_sublist; [apply truncate_sublist |].
    apply candidate_loop_apart. constructor. }
  rewrite Forall_forall in Hlt.
  intros a b Ha Hb Hab.
  apply list_elem_of_lookup in Ha as [p Hp].
  apply list_elem_of_lookup in Hb as [q Hq].
  pose proof (lookup_lt_Some _ _ _ Hp) as Hpl.
  pose proof (lookup_lt_Some _ _ _ Hq) as Hql.
  assert (Ha : a < length scores) by (eapply Hlt, list_elem_of_lookup_2; eauto).
  assert (Hb : b < length scores) by (eapply Hlt, list_elem_of_lookup_2; eauto).
  destruct (Nat.lt_total p q) as [Hpq | [Heq | Hqp]].
  - pose proof (StronglySorted_nth _ 0 _ p q Hsorted Hpq Hql) as Hf.
    rewrite (nth_lookup_Some _ _ _ _ Hp), (nth_lookup_Some _ _ _ _ Hq) in Hf.
    by apply (pair_fail_false px boxes scores thr a b).
  - subst q. congruence.
  - pose proof (StronglySorted_nth _ 0 _ q p Hsorted Hqp Hpl) as Hf.
    rewrite (nth_lookup_Some _ _ _ _ Hp), (nth_lookup_Some _ _ _ _ Hq) in Hf.
    rewrite iou_sym. by apply (pair_fail_false px boxes scores thr b a).
Qed.

Lemma nms_kept_boxes_apart_witness :
  exists dets inds,
    nms (Jittor.nms 1)
      (mkVar2 4 [[0; 0; 10; 10]; [1; 1; 10; 10]; [20; 20; 30; 30]]%Q)
      [3 # 10; 9 # 10; 8 # 10]%Q (1 # 2) 0 0 (-1) = inr (dets, inds) /\
    forall a b, a ∈ inds -> b ∈ inds -> a <> b ->
      (Jittor.iou 1
         (box (mkVar2 4 [[0; 0; 10; 10]; [1; 1; 10; 10]; [20; 20; 30; 30]]%Q) a)
         (box (mkVar2 4 [[0; 0; 10; 10]; [1; 1; 10; 10]; [20; 20; 30; 30]]%Q) b)
       <= 1 # 2)%Q.
Proof.
  apply (nms_kept_boxes_apart 1 _ _ (1 # 2) 0 0 (-1)).
  valid_input_by_computation.
Defined.

(** * Why a box is dropped *)

Lemma candidate_loop_complete (R : relation nat) fail todo y :
  StronglySorted R todo ->
  Forall (fun j => Forall (R j) todo) y ->
  forall i, i ∈ todo ->
    i ∈ Jittor.candidate_loop fail todo y \/
    exists j, j ∈ Jittor.candidate_loop fail todo y /\ fail j i = true /\ R j i.
Proof.
  intros Hsorted. revert y.
  induction Hsorted as [| a todo Htodo IH Ha]; intros y Hy i Hi;
    [by apply elem_of_nil in Hi |].
  assert (Hy' : Forall (fun j => Forall (R j) todo) y).
  { eapply Forall_impl; [exact Hy |]. intros j Hj.
    by apply Forall_cons in Hj as [_ Hj]. }
  change (Jittor.candidate_loop fail (a :: todo) y)
    with (Jittor.candidate_loop fail todo (Jittor.select_next fail y a)).
  unfold Jittor.select_next.
  destruct (existsb (fun j => fail j a) y) eqn:E.
  - apply elem_of_cons in Hi as [-> | Hi]; [| by apply IH].
    right. apply existsb_exists in E as (j & Hj & Hf).
    apply list_elem_of_In in Hj. exists j. split; [| split; [exact Hf |]].
    + destruct (candidate_loop_extends fail todo y) as (k & -> & _).
      apply elem_of_app. by left.
    + rewrite Forall_forall in Hy. specialize (Hy j Hj).
      by apply Forall_cons in Hy as [Hy _].
  - assert (Hya : Forall (fun j => Forall (R j) todo) (y ++ [a])).
    { apply Forall_app. split; [exact Hy' |]. by constructor. }
    apply elem_of_cons in Hi as [-> | Hi]; [| by apply IH].
    left. destruct (candidate_loop_extends fail todo (y ++ [a])) as (k & -> & _).
    rewrite !elem_of_app, list_elem_of_singleton. tauto.
Qed.

(** X12.  Without a bound on the number of results, every box that got past
    the score filter and is not returned was suppressed by a returned box:
    one whose score is at least as large and whose IoU with it exceeds the
    threshold. *)
Theorem nms_dropped_box_has_suppressor px boxes scores thr offset st mn :
  valid_input boxes scores offset ->
  (mn <= 0)%Z ->
  exists dets inds,
    nms (Jittor.nms px) boxes scores thr offset st mn = inr (dets, inds) /\
    forall i, survivor scores st i -> i ∉ inds ->
      exists j, j ∈ inds /\
        (thr < Jittor.iou px (box boxes j) (box boxes i))%Q /\
        (nth i scores 0 <= nth j scores 0)%Q.
Proof.
  intros Hv Hmn. rewrite nms_valid by exact Hv.
  destruct (NMSop_execute_loop px boxes scores thr offset st Hv)
    as (sub & _ & _ & Hsub & Hex).
  eexists _, _. split; [reflexivity |].
  rewrite Hex, truncate_nonpos by exact Hmn.
  destruct Hv as (H4 & Hwf & Hn & _).
  set (fail := pair_fail px (rows (concat_col boxes scores)) thr).
  set (key := fun i => nth i scores 0%Q).
  intros i Hi Hnot.
  assert (Hin : i ∈ Jittor.sort_desc key sub)
    by (rewrite sort_desc_perm; by apply Hsub).
  destruct (candidate_loop_complete (by_key key) fail (Jittor.sort_desc key sub)
              [] (sort_desc_sorted key sub) (Forall_nil_2 _) i Hin)
    as [Hkept | (j & Hj & Hf & Hji)]; [done |].
  exists j. split; [exact Hj |]. split; [| exact Hji].
  assert (Hjs : survivor scores st j).
  { apply Hsub. eapply elem_of_sublist in Hj; [| apply candidate_loop_sublist].
    by rewrite sort_desc_perm in Hj. }
  apply Qnot_le_lt. intros Hle.
  apply (pair_fail_false px boxes scores thr j i) in Hle;
    [| done | done | done | apply Hjs | apply Hi].
  unfold fail in Hf. congruence.
Qed.

Lemma nms_dropped_box_has_suppressor_witness :
  exists dets inds,
    nms (Jittor.nms 1)
      (mkVar2 4 [[0; 0; 10; 10]; [1; 1; 10; 10]; [20; 20; 30; 30]]%Q)
      [3 # 10; 9 # 10; 8 # 10]%Q (1 # 2) 0 0 (-1) = inr (dets, inds) /\
    forall i, survivor [3 # 10; 9 # 10; 8 # 10]%Q 0 i -> i ∉ inds ->
      exists j, j ∈ inds /\
        (1 # 2 < Jittor.iou 1
           (box (mkVar2 4 [[0; 0; 10; 10]; [1; 1; 10; 10]; [20; 20; 30; 30]]%Q) j)
           (box (mkVar2 4 [[0; 0; 10; 10]; [1; 1; 10; 10]; [20; 20; 30; 30]]%Q) i))%Q /\
        (nth i [3 # 10; 9 # 10; 8 # 10]%Q 0 <= nth j [3 # 10; 9 # 10; 8 # 10]%Q 0)%Q.
Proof.
  apply (nms_dropped_box_has_suppressor 1 _ _ (1 # 2) 0 0 (-1)).
  - valid_input_by_computation.
  - lia.
Defined.

(** * The returned rows *)

(** X13.  The rows [nms] returns have shape (K, 5), K the number of
    returned indices, and row k is the input box at index k of the result
    followed by its score. *)
Theorem nms_dets_shape px boxes scores thr offset st mn :
  valid_input boxes scores offset ->
  exists dets inds,
    nms (Jittor.nms px) boxes scores thr offset st mn = inr (dets, inds) /\
    size1 dets = 5 /\ wf_Var2 dets /\ size0 dets = length inds /\
    forall k, k < length inds ->
      nth k (rows dets) [] =
      box boxes (nth k inds 0) ++ [nth (nth k inds 0) scores 0%Q].
Proof.
  intros Hv. rewrite nms_valid by exact Hv.
  destruct (NMSop_execute_kept px boxes scores thr offset st mn Hv)
    as (_ & Hlt & _).
  destruct Hv as (H4 & Hwf & Hn & _).
  set (inds := NMSop_execute (Jittor.nms px) boxes scores thr offset st mn) in *.
  eexists _, inds. split; [reflexivity |].
  split; [simpl; by rewrite H4 |].
  rewrite Forall_forall in Hlt.
  split; [| split].
  - unfold wf_Var2. rewrite rows_concat_col_gather. simpl.
    apply Forall_forall. intros r Hr.
    apply list_elem_of_In, in_map_iff in Hr. destruct Hr as (i & <- & Hi).
    apply list_elem_of_In, Hlt in Hi.
    rewrite length_app, wf_row by (done || lia). simpl. lia.
  - unfold size0. rewrite rows_concat_col_gather. apply length_map.
  - intros k Hk. rewrite rows_concat_col_gather.
    rewrite (nth_indep _ [] (nth 0 (rows boxes) [] ++ [nth 0 scores 0%Q]))
      by (by rewrite length_map).
    by rewrite (map_nth (fun i => nth i (rows boxes) [] ++ [nth i scores 0%Q])).
Qed.

Lemma nms_dets_shape_witness :
  exists dets inds,
    nms (Jittor.nms 1)
      (mkVar2 4 [[0; 0; 10; 10]; [1; 1; 10; 10]; [20; 20; 30; 30]]%Q)
      [3 # 10; 9 # 10; 8 # 10]%Q (1 # 2) 0 0 (-1) = inr (dets, inds) /\
    size1 dets = 5 /\ wf_Var2 dets /\ size0 dets = length inds /\
    forall k, k < length inds ->
      nth k (rows dets) [] =
      box (mkVar2 4 [[0; 0; 10; 10]; [1; 1; 10; 10]; [20; 20; 30; 30]]%Q)
          (nth k inds 0)
      ++ [nth (nth k inds 0) [3 # 10; 9 # 10; 8 # 10]%Q 0%Q].
Proof.
  apply (nms_dets_shape 1 _ _ (1 # 2) 0 0 (-1)).
  valid_input_by_computation.
Defined.

(** * A threshold that suppresses nothing *)

Lemma inter_side_bounds (px a0 a2 b0 b2 : Q) :
  (0 <= px)%Q -> (a0 <= a2)%Q -> (b0 <= b2)%Q ->
  (0 <= Qmax 0 (Qmin a2 b2 - Qmax a0 b0 + px))%Q /\
  (Qmax 0 (Qmin a2 b2 - Qmax a0 b0 + px) <= a2 - a0 + px)%Q /\
  (Qmax 0 (Qmin a2 b2 - Qmax a0 b0 + px) <= b2 - b0 + px)%Q.
Proof.
  intros Hpx Ha Hb.
  pose proof (Q.le_min_l a2 b2). pose proof (Q.le_min_r a2 b2).
  pose proof (Q.le_max_l a0 b0). pose proof (Q.le_max_r a0 b0).
  split; [apply Q.le_max_l |].
  split; apply Q.max_lub; lra.
Qed.

Lemma Qdiv_le_1 (x u : Q) : (0 <= x)%Q -> (x <= u)%Q -> (x / u <= 1)%Q.
Proof.
  intros Hx Hxu. destruct (Qlt_le_dec 0 u) as [Hpos | Hle].
  - apply Qle_shift_div_r; [exact Hpos | lra].
  - assert (Hu : (u == 0)%Q) by lra.
    unfold Qdiv. rewrite Hu. assert (H0 : (x * / 0 == 0)%Q) by (change (/ 0)%Q with 0%Q; ring).
    rewrite H0. discriminate.
Qed.

(** The IoU of two proper boxes never exceeds 1. *)
Lemma iou_le_1 px a b :
  (0 <= px)%Q ->
  (nth 0 a 0 <= nth 2 a 0)%Q -> (nth 1 a 0 <= nth 3 a 0)%Q ->
  (nth 0 b 0 <= nth 2 b 0)%Q -> (nth 1 b 0 <= nth 3 b 0)%Q ->
  (Jittor.iou px a b <= 1)%Q.
Proof.
  intros Hpx Ha0 Ha1 Hb0 Hb1.
  unfold Jittor.iou, Jittor.inter, Jittor.inter_w, Jittor.inter_h, Jittor.area.
  destruct (inter_side_bounds px _ _ _ _ Hpx Ha0 Hb0) as (Hw0 & Hwa & Hwb).
  destruct (inter_side_bounds px _ _ _ _ Hpx Ha1 Hb1) as (Hh0 & Hha & Hhb).
  set (iw := (Qmax 0 (Qmin (nth 2 a 0) (nth 2 b 0) - Qmax (nth 0 a 0) (nth 0 b 0) + px))%Q) in *.
  set (ih := (Qmax 0 (Qmin (nth 3 a 0) (nth 3 b 0) - Qmax (nth 1 a 0) (nth 1 b 0) + px))%Q) in *.
  apply Qdiv_le_1; nra.
Qed.

Lemma candidate_loop_all fail todo y :
  StronglySorted (fun j i => fail j i = false) (y ++ todo) ->
  Jittor.candidate_loop fail todo y = y ++ todo.
Proof.
  revert y. induction todo as [| a todo IH]; intros y Hs.
  - by rewrite app_nil_r.
  - change (Jittor.candidate_loop fail (a :: todo) y)
      with (Jittor.candidate_loop fail todo (Jittor.select_next fail y a)).
    unfold Jittor.select_next.
    assert (E : existsb (fun j => fail j a) y = false).
    { apply not_true_is_false. intros E.
      apply existsb_exists in E as (j & Hj & Hja).
      apply list_elem_of_In in Hj.
      rewrite (StronglySorted_app_1_elem_of _ y (a :: todo) j a Hs Hj) in Hja;
        [discriminate | by left]. }
    rewrite E, IH; rewrite <- app_assoc; [reflexivity | exact Hs].
Qed.

Lemma StronglySorted_all {A} (R : relation A) l :
  (forall x y, x ∈ l -> y ∈ l -> R x y) -> StronglySorted R l.
Proof.
  induction l as [| a l IH]; intros H; constructor.
  - apply IH. intros x y Hx Hy. apply H; by right.
  - apply Forall_forall. intros y Hy. apply H; [by left | by right].
Qed.

(** X14.  With proper boxes (x1 <= x2, y1 <= y2) and an [iou_threshold] of
    1 or more nothing is suppressed: without a bound on the number of
    results, [nms] returns exactly the boxes that got past the score
    filter. *)
Theorem nms_threshold_one_keeps_all px boxes scores thr offset st mn :
  valid_input boxes scores offset ->
  proper_boxes boxes ->
  (0 <= px)%Q ->
  (1 <= thr)%Q ->
  (mn <= 0)%Z ->
  exists dets inds,
    nms (Jittor.nms px) boxes scores thr offset st mn = inr (dets, inds) /\
    forall i, i ∈ inds <-> survivor scores st i.
Proof.
  intros Hv Hproper Hpx Hthr Hmn. rewrite nms_valid by exact Hv.
  destruct (NMSop_execute_loop px boxes scores thr offset st Hv)
    as (sub & _ & _ & Hsub & Hex).
  eexists _, _. split; [reflexivity |].
  rewrite Hex, truncate_nonpos by exact Hmn.
  destruct Hv as (H4 & Hwf & Hn & _).
  rewrite candidate_loop_all.
  - intros i. simpl. by rewrite sort_desc_perm.
  - simpl. apply StronglySorted_all. intros j i Hj Hi.
    rewrite sort_desc_perm in Hj, Hi.
    apply Hsub in Hj as [Hj _]. apply Hsub in Hi as [Hi _].
    apply (pair_fail_false px boxes scores thr j i); try done.
    unfold box. unfold proper_boxes in Hproper. rewrite Forall_forall in Hproper.
    unfold size0 in Hn.
    assert (Hbj : box boxes j ∈ rows boxes)
      by (apply list_elem_of_In, nth_In; lia).
    assert (Hbi : box boxes i ∈ rows boxes)
      by (apply list_elem_of_In, nth_In; lia).
    destruct (Hproper _ Hbj) as [? ?]. destruct (Hproper _ Hbi) as [? ?].
    eapply Qle_trans; [by apply iou_le_1 | exact Hthr].
Qed.

Lemma nms_threshold_one_keeps_all_witness :
  exists dets inds,
    nms (Jittor.nms 1)
      (mkVar2 4 [[0; 0; 10; 10]; [0; 0; 10; 10]; [1; 1; 10; 10]]%Q)
      [3 # 10; 9 # 10; 8 # 10]%Q 1 0 0 (-1) = inr (dets, inds) /\
    forall i, i ∈ inds <-> survivor [3 # 10; 9 # 10; 8 # 10]%Q 0 i.
Proof.
  apply (nms_threshold_one_keeps_all 1 _ _ 1 0 0 (-1)).
  - valid_input_by_computation.
  - unfold proper_boxes. simpl.
    repeat (constructor; [split; vm_compute; discriminate |]). constructor.
  - vm_compute. discriminate.
  - vm_compute. discriminate.
  - lia.
Defined.

(** * Suppressing twice *)

Lemma sort_desc_sorted_id key l :
  StronglySorted (by_key key) l -> Jittor.sort_desc key l = l.
Proof.
  induction 1 as [| a l Hl IH Ha]; simpl; [reflexivity |].
  rewrite IH. by apply insert_desc_front.
Qed.

Lemma ascending_unique (l1 l2 : list nat) :
  StronglySorted lt l1 -> StronglySorted lt l2 ->
  NoDup l1 -> NoDup l2 -> (forall i, i ∈ l1 <-> i ∈ l2) -> l1 = l2.
Proof.
  intros H1 H2 N1 N2 Hsame.
  apply (StronglySorted_unique_strong lt); try done.
  - intros x1 x2 _ _ Ha Hb. lia.
  - by apply NoDup_Permutation.
Qed.

Lemma length_truncate_le {A} mn (l : list A) :
  (0 < mn)%Z -> length (truncate mn l) <= Z.to_nat mn.
Proof.
  intros H. rewrite truncate_pos by exact H. rewrite length_take. lia.
Qed.

Lemma truncate_all {A} mn (l : list A) :
  ((0 < mn)%Z -> length l <= Z.to_nat mn) -> truncate mn l = l.
Proof.
  intros H. unfold truncate. destruct (0 <? mn)%Z eqn:E; [| reflexivity].
  apply Z.ltb_lt in E. apply take_ge. by apply H.
Qed.

(** X15.  With scores that are pairwise different, suppression is
    idempotent, whatever descending sort the primitive uses: [nms] applied
    to the boxes and scores it has kept, with the same arguments, drops
    nothing and changes no order; it returns the same rows and the indices
    0, 1, ..., K - 1. *)
Theorem nms_idempotent argsort px boxes scores thr offset st mn :
  descending argsort ->
  valid_input boxes scores offset ->
  distinct scores ->
  exists dets inds,
    nms (Jittor.nms_by argsort px) boxes scores thr offset st mn
      = inr (dets, inds) /\
    nms (Jittor.nms_by argsort px) (gather_rows inds boxes)
      (gather 0%Q inds scores) thr offset st mn
      = inr (dets, seq 0 (length inds)).
Proof.
  intros Hd Hv Hx.
  rewrite nms_by by (try done; apply Hv).
  rewrite nms_valid by exact Hv.
  destruct (NMSop_execute_kept px boxes scores thr offset st mn Hv)
    as (Hnd & Hlt & Hdesc).
  destruct (NMSop_execute_loop px boxes scores thr offset st Hv)
    as (sub & _ & _ & Hsub & Hex).
  set (inds := NMSop_execute (Jittor.nms px) boxes scores thr offset st mn) in *.
  set (fail := pair_fail px (rows (concat_col boxes scores)) thr) in *.
  assert (Hapart : StronglySorted (fun j i => fail j i = false) inds).
  { unfold inds. rewrite Hex.
    eapply StronglySorted_sublist; [apply truncate_sublist |].
    apply candidate_loop_apart. constructor. }
  assert (Hsurv : forall i, i ∈ inds -> survivor scores st i).
  { intros i Hi. apply Hsub. unfold inds in Hi. rewrite Hex in Hi.
    eapply elem_of_sublist in Hi; [| apply truncate_sublist].
    eapply elem_of_sublist in Hi; [| apply candidate_loop_sublist].
    by rewrite sort_desc_perm in Hi. }
  assert (Hlen : (0 < mn)%Z -> length inds <= Z.to_nat mn).
  { intros Hmn. unfold inds. rewrite Hex. by apply length_truncate_le. }
  destruct Hv as (H4 & Hwf & Hn & Ho).
  rewrite Forall_forall in Hlt.
  set (boxes' := gather_rows inds boxes).
  set (scores' := gather 0%Q inds scores) in *.
  assert (Hv' : valid_input boxes' scores' offset).
  { unfold valid_input. split; [exact H4 |]. split; [| split; [| exact Ho]].
    - unfold wf_Var2, boxes', gather_rows, gather. simpl.
      apply Forall_forall. intros r Hr.
      apply list_elem_of_In, in_map_iff in Hr. destruct Hr as (i & <- & Hi).
      apply wf_row; [done |]. rewrite Hn. by apply Hlt, list_elem_of_In.
    - unfold size0, boxes', scores', gather_rows. simpl.
      by rewrite !length_gather. }
  eexists _, inds. split; [reflexivity |].
  fold boxes' scores'.
  rewrite nms_by;
    [| exact Hd | apply Hv'
     | apply distinct_gather; [exact Hnd | by apply Forall_forall | exact Hx]].
  rewrite nms_valid by exact Hv'. cbv zeta.
  destruct (NMSop_execute_loop px boxes' scores' thr offset st Hv')
    as (sub' & Hnd' & Hasc' & Hsub' & Hex').
  assert (Hlen' : length scores' = length inds) by apply length_gather.
  assert (Hsub_eq : sub' = seq 0 (length inds)).
  { apply ascending_unique; try done.
    - apply StronglySorted_seq. intros p q _ Hpq _. exact Hpq.
    - apply NoDup_seq.
    - intros p. rewrite Hsub', elem_of_seq. unfold survivor. rewrite Hlen'.
      split; [intros [Hp _]; lia |]. intros [_ Hp]. simpl in Hp.
      split; [exact Hp |]. unfold scores'. rewrite nth_gather by exact Hp.
      apply Hsurv, nth_elem_of, Hp. }
  assert (Hsorted : StronglySorted (by_key (fun p => nth p scores' 0%Q))
                      (seq 0 (length inds))).
  { apply StronglySorted_seq. intros p q _ Hpq Hq. unfold by_key.
    apply Hdesc; [lia |]. fold scores'. rewrite Hlen'. lia. }
  assert (Hrow : forall p, p < length inds ->
            nth p (rows (concat_col boxes' scores')) [] =
            nth (nth p inds 0) (rows (concat_col boxes scores)) []).
  { intros p Hp. unfold boxes', scores'. rewrite rows_concat_col_gather.
    rewrite (nth_indep _ [] (nth 0 (rows boxes) [] ++ [nth 0 scores 0%Q]))
      by (by rewrite length_map).
    rewrite (map_nth (fun i => nth i (rows boxes) [] ++ [nth i scores 0%Q])).
    rewrite row_concat_col; [reflexivity | done |].
    rewrite Hn. apply Hlt, nth_elem_of, Hp. }
  assert (Hex'' : NMSop_execute (Jittor.nms px) boxes' scores' thr offset st mn
                  = seq 0 (length inds)).
  { rewrite Hex', Hsub_eq, sort_desc_sorted_id by exact Hsorted.
    rewrite candidate_loop_all.
    - simpl. apply truncate_all. intros Hmn. rewrite length_seq. by apply Hlen.
    - simpl. apply StronglySorted_seq. intros p q _ Hpq Hq.
      unfold pair_fail. rewrite !Hrow by lia.
      apply (StronglySorted_nth _ 0 inds p q Hapart); lia. }
  rewrite Hex''. f_equal. f_equal.
  rewrite <- Hlen' at 2.
  assert (Hsz : length inds = size0 boxes').
  { unfold size0, boxes', gather_rows. simpl. by rewrite length_gather. }
  rewrite Hsz at 1. apply concat_col_full.
Qed.

Lemma nms_idempotent_witness :
  exists dets inds,
    nms (Jittor.nms_by Jittor.argsort_desc 1)
      (mkVar2 4 [[0; 0; 10; 10]; [1; 1; 10; 10]; [20; 20; 30; 30]]%Q)
      [3 # 10; 9 # 10; 8 # 10]%Q (1 # 2) 0 0 (-1) = inr (dets, inds) /\
    nms (Jittor.nms_by Jittor.argsort_desc 1)
      (gather_rows inds
         (mkVar2 4 [[0; 0; 10; 10]; [1; 1; 10; 10]; [20; 20; 30; 30]]%Q))
      (gather 0%Q inds [3 # 10; 9 # 10; 8 # 10]%Q)
      (1 # 2) 0 0 (-1) = inr (dets, seq 0 (length inds)).
Proof.
  apply (nms_idempotent Jittor.argsort_desc 1 _ _ (1 # 2) 0 0 (-1)).
  - exact descending_argsort_desc.
  - valid_input_by_computation.
  - distinct_by_computation.
Defined.

(** * The scores recorded by the large-input path *)

Lemma last_column_concat_col_gather inds boxes scores :
  last_column (concat_col (gather_rows inds boxes) (gather 0%Q inds scores)) =
  gather 0%Q inds scores.
Proof.
  unfold last_column. rewrite rows_concat_col_gather, map_map.
  unfold gather. apply map_ext. intros i. apply List.last_last.
Qed.

Lemma length_assign {A} inds (vals x : list A) :
  length (assign inds vals x) = length x.
Proof.
  unfold assign. generalize (zip inds vals). intros l. revert x.
  induction l as [| [i v] l IH]; intros x; simpl; [reflexivity |].
  by rewrite IH, length_insert.
Qed.

Lemma nth_insert (x : list Q) a v i :
  nth i (<[a := v]> x) 0%Q = if decide (i = a /\ i < length x) then v else nth i x 0%Q.
Proof.
  rewrite !nth_lookup. destruct (decide (i = a /\ i < length x)) as [[-> Hlt] | Hn].
  - by rewrite list_lookup_insert_eq.
  - destruct (decide (i = a)) as [-> | Hne].
    + by rewrite list_insert_ge by lia.
    + by rewrite list_lookup_insert_ne.
Qed.

(** [x[inds] = s[inds]] copies the entries of [s] at the positions [inds]
    and leaves the other entries of [x] alone. *)
Lemma nth_assign_gather (s x : list Q) inds i :
  nth i (assign inds (gather 0%Q inds s) x) 0%Q =
  if decide (i ∈ inds /\ i < length x) then nth i s 0%Q else nth i x 0%Q.
Proof.
  unfold assign. revert x. induction inds as [| a inds IH]; intros x.
  - destruct (decide (i ∈ [] /\ i < length x)) as [[H _] | _];
      [by apply elem_of_nil in H | reflexivity].
  - change (nth i (fold_left (fun acc iv => <[iv.1 := iv.2]> acc)
                     (zip inds (gather 0%Q inds s)) (<[a := nth a s 0%Q]> x)) 0%Q =
            if decide (i ∈ a :: inds /\ i < length x)
            then nth i s 0%Q else nth i x 0%Q).
    rewrite IH, length_insert, nth_insert.
    destruct (decide (i ∈ inds /\ i < length x)) as [[Hi Hlt] | Hn];
      destruct (decide (i = a /\ i < length x)) as [[Ha Hlt'] | Hn'];
      destruct (decide (i ∈ a :: inds /\ i < length x)) as [[Hc Hlt''] | Hnc];
      subst; try reflexivity; exfalso.
    + apply Hnc. split; [by right | exact Hlt].
    + apply Hnc. split; [by right | exact Hlt].
    + apply Hnc. split; [by left | exact Hlt'].
    + apply elem_of_cons in Hc as [-> | Hc]; tauto.
Qed.

Section Recorded.

Variables (px : Q) (boxes b4nms : Var2) (scores : list Q) (idxs : list Z)
  (thr : Q).
Hypothesis H4 : size1 b4nms = 4.
Hypothesis Hwf : wf_Var2 b4nms.
Hypothesis Hn : size0 b4nms = length scores.
Hypothesis Hidx : length idxs = length scores.

Lemma group_keeps_lt_mask g :
  let mask := nonzero (map (fun x => (x =? g)%Z) idxs) in
  Forall (fun k => k < length mask)
    (Jittor.nms px
       (concat_col (gather_rows mask b4nms) (gather 0%Q mask scores)) thr).
Proof.
  intros mask. apply Forall_forall. intros k Hk. apply Jittor_nms_lt in Hk.
  unfold size0, concat_col, gather_rows in Hk. simpl in Hk.
  rewrite length_zip_with, !length_gather in Hk. lia.
Qed.

(** One round of the loop: the kept positions of the group are set in the
    mask and receive their own scores. *)
Lemma group_step_result tm sa g :
  group_step (Jittor.nms px) b4nms scores idxs thr (tm, sa) g =
  inr (assign_const (group_keeps px b4nms scores idxs thr g) 1%Q tm,
       assign (group_keeps px b4nms scores idxs thr g)
              (gather 0%Q (group_keeps px b4nms scores idxs thr g) scores) sa).
Proof.
  unfold group_step.
  rewrite nms_valid by (by apply group_call_valid).
  simpl. rewrite NMSop_execute_plain.
  rewrite last_column_concat_col_gather.
  rewrite <- gather_gather by apply group_keeps_lt_mask.
  reflexivity.
Qed.

Lemma group_loop_result ids tm sa :
  length sa = length tm ->
  (forall i, marked tm i -> nth i sa 0%Q = nth i scores 0%Q) ->
  exists tm' sa',
    group_loop (Jittor.nms px) b4nms scores idxs thr ids (tm, sa) = inr (tm', sa') /\
    length tm' = length tm /\
    (forall i, marked tm' i <->
       marked tm i \/
       (i < length tm /\
        exists g, g ∈ ids /\ i ∈ group_keeps px b4nms scores idxs thr g)) /\
    (forall i, marked tm' i -> nth i sa' 0%Q = nth i scores 0%Q).
Proof.
  unfold group_loop.
  set (F := fun r id =>
         bind_r r (fun acc =>
           group_step (Jittor.nms px) b4nms scores idxs thr acc id)).
  revert tm sa.
  induction ids as [| g ids IH]; intros tm sa Hlen Hsa.
  - exists tm, sa. split; [reflexivity |]. split; [reflexivity |].
    split; [| exact Hsa].
    intros i. split; [auto |]. intros [H | (_ & g & Hg & _)]; [exact H |].
    by apply elem_of_nil in Hg.
  - change (fold_left F (g :: ids) (inr (tm, sa)))
      with (fold_left F ids
              (group_step (Jittor.nms px) b4nms scores idxs thr (tm, sa) g)).
    rewrite group_step_result.
    set (K := group_keeps px b4nms scores idxs thr g).
    destruct (IH (assign_const K 1%Q tm) (assign K (gather 0%Q K scores) sa))
      as (tm' & sa' & -> & Hlen' & Hmark & Hsa').
    + by rewrite length_assign, length_assign_const.
    + intros i Hi. rewrite nth_assign_gather.
      destruct (decide _) as [_ | Hnot]; [reflexivity |].
      apply marked_assign_const in Hi as [[Hi Hlt] | Hi]; [| by apply Hsa].
      exfalso. apply Hnot. split; [exact Hi | lia].
    + exists tm', sa'. split; [reflexivity |].
      rewrite length_assign_const in Hlen', Hmark.
      split; [exact Hlen' |]. split; [| exact Hsa'].
      intros i. rewrite Hmark, marked_assign_const. split.
      * intros [[[Hi Hlt] | Hm] | (Hlt & g' & Hg' & Hi)].
        -- right. split; [exact Hlt |]. exists g. split; [by left | exact Hi].
        -- by left.
        -- right. split; [exact Hlt |]. exists g'. split; [by right | exact Hi].
      * intros [Hm | (Hlt & g' & Hg' & Hi)]; [left; by right |].
        apply elem_of_cons in Hg' as [-> | Hg'].
        -- left. by left.
        -- right. split; [exact Hlt |]. by exists g'.
Qed.

(** The result of the large-input path: the kept indices in an order of
    descending score, the boxes and scores of the input at these indices,
    all three cut to [max_num] entries when that is positive. *)
Lemma large_path_result max_num :
  exists keep,
    NoDup keep /\
    (forall i, i ∈ keep <->
       exists g, g ∈ idxs /\ i ∈ group_keeps px b4nms scores idxs thr g) /\
    non_increasing (gather 0%Q keep scores) /\
    large_path (Jittor.nms px) boxes b4nms scores idxs thr max_num =
    if Qlt_bool 0 (to_float max_num) then
      bind_r (to_index max_num)
        (fun n =>
           let keep' := take (Z.to_nat n) keep in
           inr (concat_col (gather_rows keep' boxes) (gather 0%Q keep' scores),
                keep'))
    else inr (concat_col (gather_rows keep boxes) (gather 0%Q keep scores), keep).
Proof.
  unfold large_path.
  destruct (group_loop_result (unique idxs)
              (map (fun _ => 0%Q) scores) (map (fun _ => 0%Q) scores))
    as (tm & sa & -> & Hlen & Hmark & Hsa).
  { reflexivity. }
  { intros i Hi. by apply marked_zeros in Hi. }
  simpl.
  set (keep0 := nonzero (as_mask tm)).
  set (unsorted := gather 0%Q keep0 sa).
  set (inds := Jittor.argsort_desc unsorted).
  assert (Hlt : Forall (fun k => k < length keep0) inds).
  { apply Forall_forall. intros k Hk. apply elem_of_argsort_desc in Hk.
    unfold unsorted in Hk. by rewrite length_gather in Hk. }
  assert (Hperm : gather 0 inds keep0 ≡ₚ keep0).
  { apply gather_perm. unfold inds. rewrite argsort_desc_perm.
    unfold unsorted. by rewrite length_gather. }
  assert (Hscores : gather 0%Q inds unsorted =
                    gather 0%Q (gather 0 inds keep0) scores).
  { unfold unsorted. rewrite <- gather_gather by exact Hlt.
    unfold gather at 1 3. apply map_ext_Forall. apply Forall_forall.
    intros i Hi. apply Hsa. apply elem_of_nonzero.
    by rewrite Hperm in Hi. }
  exists (gather 0 inds keep0).
  split; [rewrite Hperm; apply NoDup_nonzero |]. split; [| split].
  - intros i. rewrite Hperm. unfold keep0. rewrite elem_of_nonzero.
    fold (marked tm i). rewrite Hmark. rewrite length_map. split.
    + intros [H | (_ & g & Hg & Hi)]; [by apply marked_zeros in H |].
      exists g. split; [by apply elem_of_unique | exact Hi].
    + intros (g & Hg & Hi). right. split.
      * by eapply group_keeps_lt.
      * exists g. split; [by apply elem_of_unique | exact Hi].
  - rewrite <- Hscores. apply non_increasing_gather, argsort_desc_sorted.
  - rewrite Hscores. destruct (Qlt_bool 0 (to_float max_num)); [| reflexivity].
    destruct (to_index max_num) as [e | n]; [reflexivity |]. simpl.
    unfold ret_r. f_equal. f_equal.
    unfold concat_col, gather_rows, gather. simpl.
    by rewrite !firstn_map.
Qed.

End Recorded.

Lemma non_increasing_take k (l : list Q) :
  non_increasing l -> non_increasing (take k l).
Proof.
  intros H i j Hij Hj. rewrite length_take in Hj.
  rewrite !nth_lookup, !lookup_take_lt by lia. rewrite <- !nth_lookup.
  apply H; lia.
Qed.

(** What [batched_nms] returns on a valid input, on either path. *)
Lemma batched_nms_result px boxes scores idxs (m : dict) p :
  valid_input boxes scores 0 ->
  length idxs = size0 boxes ->
  int_max_num m ->
  exists keep,
    batched_nms_of (Jittor.nms px) boxes scores idxs m p =
    inr (concat_col (gather_rows keep boxes) (gather 0%Q keep scores), keep) /\
    NoDup keep /\
    Forall (fun i => i < length scores) keep /\
    non_increasing (gather 0%Q keep scores).
Proof.
  intros Hv Hidx [n Hint]. unfold batched_nms_of.
  set (ca := truthy (cfg_get m "class_agnostic" (PyBool p))).
  set (thr := to_float (cfg_get m "iou_thr" (PyInt 0))).
  destruct (valid_boxes_for_nms ca boxes scores idxs 0 Hv Hidx)
    as (H4' & Hwf' & Hn' & Hidx').
  assert (Hv' : valid_input (boxes_for_nms ca boxes idxs) scores 0)
    by (unfold valid_input; auto).
  destruct (Qlt_bool _ _).
  - unfold small_path. rewrite nms_valid by exact Hv'. simpl.
    destruct (NMSop_execute_kept px _ scores thr 0 0 (-1) Hv')
      as (Hnd & Hlt & Hdesc).
    eexists. split; [| split; [exact Hnd | split; [exact Hlt | exact Hdesc]]].
    unfold ret_r. f_equal. f_equal. by rewrite column_dets.
  - destruct (large_path_result px boxes _ scores idxs thr H4' Hwf' Hn' Hidx'
                (cfg_get m "max_num" (PyInt (-1))))
      as (keep & Hnd & Hin & Hdesc & ->).
    assert (Hlt : Forall (fun i => i < length scores) keep).
    { apply Forall_forall. intros i Hi. apply Hin in Hi as (g & _ & Hi).
      by eapply group_keeps_lt. }
    rewrite Hint. simpl. destruct (Qlt_bool 0 _).
    + eexists. split; [reflexivity |]. split; [| split].
      * eapply sublist_NoDup; [exact Hnd | apply sublist_take].
      * by apply Forall_take.
      * unfold gather. rewrite <- firstn_map. by apply non_increasing_take.
    + eexists. split; [reflexivity |]. by split.
Qed.

(** X16.  On either path [batched_nms] returns the boxes as they came in:
    row k of the result is the input box at the k-th kept index, with the
    coordinates of the input and not the ones moved apart per group,
    followed by the input score at that index. *)
Theorem batched_nms_returns_input_rows px boxes scores idxs cfg p
    (h : heap) (m : dict) :
  valid_input boxes scores 0 ->
  length idxs = size0 boxes ->
  h !! cfg = Some m ->
  int_max_num m ->
  exists keep,
    (batched_nms (Jittor.nms px) boxes scores idxs cfg p h).1 =
    inr (concat_col (gather_rows keep boxes) (gather 0%Q keep scores), keep) /\
    Forall (fun i => i < size0 boxes) keep.
Proof.
  intros Hv Hidx Hm Hint.
  rewrite (batched_nms_fst _ _ _ _ _ _ h m Hm).
  destruct (batched_nms_result px boxes scores idxs m p Hv Hidx Hint)
    as (keep & -> & _ & Hlt & _).
  exists keep. split; [reflexivity |].
  destruct Hv as (_ & _ & Hn & _). by rewrite Hn.
Qed.

Lemma batched_nms_returns_input_rows_witness :
  let boxes := mkVar2 4 [[0; 0; 10; 10]; [1; 1; 10; 10]; [0; 0; 10; 10]]%Q in
  let scores := [3 # 10; 9 # 10; 8 # 10]%Q in
  exists keep,
    (batched_nms (Jittor.nms 1) boxes scores [0; 1; 0]%Z 0 false
       [{[ "split_thr" := PyInt 2 ]}]).1 =
    inr (concat_col (gather_rows keep boxes) (gather 0%Q keep scores), keep) /\
    Forall (fun i => i < 3) keep.
Proof.
  intros boxes scores.
  apply (batched_nms_returns_input_rows 1 boxes scores [0; 1; 0]%Z 0 false
           [{[ "split_thr" := PyInt 2 ]}] {[ "split_thr" := PyInt 2 ]}).
  - valid_input_by_computation.
  - reflexivity.
  - reflexivity.
  - exists (-1)%Z. reflexivity.
Defined.

(** X17.  On either path the rows [batched_nms] returns are ordered by
    score: the scores of the kept boxes never increase along the result. *)
Theorem batched_nms_scores_non_increasing px boxes scores idxs cfg p
    (h : heap) (m : dict) :
  valid_input boxes scores 0 ->
  length idxs = size0 boxes ->
  h !! cfg = Some m ->
  int_max_num m ->
  exists dets keep,
    (batched_nms (Jittor.nms px) boxes scores idxs cfg p h).1 = inr (dets, keep) /\
    column 4 dets = gather 0%Q keep scores /\
    non_increasing (column 4 dets).
Proof.
  intros Hv Hidx Hm Hint.
  rewrite (batched_nms_fst _ _ _ _ _ _ h m Hm).
  destruct (batched_nms_result px boxes scores idxs m p Hv Hidx Hint)
    as (keep & -> & _ & Hlt & Hdesc).
  destruct Hv as (H4 & Hwf & Hn & _).
  eexists _, keep. split; [reflexivity |].
  rewrite column_dets by done. by split.
Qed.

Lemma batched_nms_scores_non_increasing_witness :
  let boxes := mkVar2 4 [[0; 0; 10; 10]; [1; 1; 10; 10]; [0; 0; 10; 10]]%Q in
  let scores := [3 # 10; 9 # 10; 8 # 10]%Q in
  exists dets keep,
    (batched_nms (Jittor.nms 1) boxes scores [0; 1; 0]%Z 0 false
       [{[ "split_thr" := PyInt 2 ]}]).1 = inr (dets, keep) /\
    column 4 dets = gather 0%Q keep scores /\
    non_increasing (column 4 dets).
Proof.
  intros boxes scores.
  apply (batched_nms_scores_non_increasing 1 boxes scores [0; 1; 0]%Z 0 false
           [{[ "split_thr" := PyInt 2 ]}] {[ "split_thr" := PyInt 2 ]}).
  - valid_input_by_computation.
  - reflexivity.
  - reflexivity.
  - exists (-1)%Z. reflexivity.
Defined.

(** * Moving a group does not change its suppression *)

Lemma iou_shift px o (a b : list Q) :
  length a = 4 -> length b = 4 ->
  (Jittor.iou px (map (fun c => (c + o)%Q) a) (map (fun c => (c + o)%Q) b)
   == Jittor.iou px a b)%Q.
Proof.
  intros Ha Hb.
  destruct a as [| a0 [| a1 [| a2 [| a3 [| ? ?]]]]]; try discriminate Ha.
  destruct b as [| b0 [| b1 [| b2 [| b3 [| ? ?]]]]]; try discriminate Hb.
  unfold Jittor.iou, Jittor.inter, Jittor.inter_w, Jittor.inter_h, Jittor.area.
  simpl.
  rewrite !Q.plus_min_distr_r, !Q.plus_max_distr_r.
  assert (Hw : (Qmin a2 b2 + o - (Qmax a0 b0 + o) + px
                == Qmin a2 b2 - Qmax a0 b0 + px)%Q) by ring.
  assert (Hh : (Qmin a3 b3 + o - (Qmax a1 b1 + o) + px
                == Qmin a3 b3 - Qmax a1 b1 + px)%Q) by ring.
  rewrite Hw, Hh.
  assert (Haa : ((a2 + o - (a0 + o) + px) * (a3 + o - (a1 + o) + px)
                 == (a2 - a0 + px) * (a3 - a1 + px))%Q) by ring.
  assert (Hbb : ((b2 + o - (b0 + o) + px) * (b3 + o - (b1 + o) + px)
                 == (b2 - b0 + px) * (b3 - b1 + px))%Q) by ring.
  rewrite Haa, Hbb. reflexivity.
Qed.

Lemma fail_cond_shift px thr o (a b : list Q) (sa sb : Q) :
  length a = 4 -> length b = 4 ->
  Jittor.fail_cond px thr (map (fun c => (c + o)%Q) a ++ [sa])
                          (map (fun c => (c + o)%Q) b ++ [sb]) =
  Jittor.fail_cond px thr (a ++ [sa]) (b ++ [sb]).
Proof.
  intros Ha Hb. unfold Jittor.fail_cond.
  rewrite !iou_row by (rewrite ?length_map; done).
  by rewrite iou_shift.
Qed.

Lemma candidate_loop_ext (ok : nat -> Prop) fail fail' todo y :
  (forall j i, ok j -> ok i -> fail' j i = fail j i) ->
  Forall ok todo -> Forall ok y ->
  Jittor.candidate_loop fail' todo y = Jittor.candidate_loop fail todo y.
Proof.
  intros Hf Htodo Hy.
  pose proof (candidate_loop_map ok (fun i => i) fail fail' todo y Hf Htodo Hy)
    as H.
  by rewrite !map_id in H.
Qed.

Section Shift.

Variables (px : Q) (boxes : Var2) (scores : list Q) (idxs : list Z) (thr : Q).
Hypothesis H4 : size1 boxes = 4.
Hypothesis Hwf : wf_Var2 boxes.
Hypothesis Hn : size0 boxes = length scores.
Hypothesis Hidx : length idxs = length scores.

Lemma pair_fail_same_group j i :
  j < length scores -> i < length scores ->
  nth j idxs 0%Z = nth i idxs 0%Z ->
  pair_fail px (rows (concat_col (boxes_for_nms false boxes idxs) scores)) thr j i =
  pair_fail px (rows (concat_col boxes scores)) thr j i.
Proof.
  intros Hj Hi Hg. unfold pair_fail.
  rewrite !row_concat_col by (rewrite ?size0_boxes_for_nms; lia).
  rewrite !row_boxes_for_nms by lia.
  rewrite Hg. apply fail_cond_shift; rewrite <- H4; apply wf_row; (done || lia).
Qed.

(** What the suppression over a group alone keeps is the same for the
    moved boxes and for the boxes as they came in. *)
Lemma group_keeps_shift g :
  group_keeps px (boxes_for_nms false boxes idxs) scores idxs thr g =
  group_keeps px boxes scores idxs thr g.
Proof.
  unfold group_keeps.
  assert (Hmask : Forall (fun i => i < length scores)
                    (nonzero (map (fun x => (x =? g)%Z) idxs))).
  { apply Forall_forall. intros i Hi. apply group_mask_lt in Hi. lia. }
  rewrite (Jittor_nms_gathered px (boxes_for_nms false boxes idxs) scores thr);
    [| by rewrite size1_boxes_for_nms | by apply wf_boxes_for_nms
     | rewrite size0_boxes_for_nms; lia | exact Hmask].
  rewrite (Jittor_nms_gathered px boxes scores thr H4 Hwf Hn _ Hmask).
  apply (candidate_loop_ext (in_group idxs g)).
  - intros j i Pj Pi. apply in_group_iff in Pj as [Hj Gj].
    apply in_group_iff in Pi as [Hi Gi].
    apply pair_fail_same_group; [lia | lia | congruence].
  - apply Forall_forall. intros i Hi. rewrite sort_desc_perm in Hi.
    rewrite group_mask in Hi. by apply list_elem_of_filter in Hi as [Hi _].
  - constructor.
Qed.



End Shift.





(** X20.  On the small-input path with class-agnostic suppression off,
    scores that are pairwise different, boxes with non-negative integer
    coordinates whose offsets stay within 2^24 and a threshold that is not
    negative, the groups do not interfere, whatever descending sort the
    primitive uses: what is kept of each group is what the suppression
    over the boxes of that group alone keeps, in the same order. *)
Theorem small_path_keeps_per_group argsort px boxes scores idxs cfg p
    (h : heap) (m : dict) :
  descending argsort ->
  (px <= 1)%Q ->
  valid_input boxes scores 0 ->
  length idxs = size0 boxes ->
  h !! cfg = Some m ->
  distinct scores ->
  non_negative boxes ->
  exact_offsets boxes idxs ->
  truthy (cfg_get m "class_agnostic" (PyBool p)) = false ->
  (0 <= to_float (cfg_get m "iou_thr" (PyInt 0)))%Q ->
  (inject_Z (Z.of_nat (size0 boxes))
   < to_float (cfg_get m "split_thr" (PyInt 10000)))%Q ->
  exists dets keep,
    (batched_nms (Jittor.nms_by argsort px) boxes scores idxs cfg p h).1
      = inr (dets, keep) /\
    forall g,
      filter (in_group idxs g) keep =
      group_keeps_by (Jittor.nms_by argsort px) boxes scores idxs
        (to_float (cfg_get m "iou_thr" (PyInt 0))) g.
Proof.
  intros Hd Hpx Hv Hidx Hm Hx Hnn _ Hca Hthr Hsmall.
  rewrite (batched_nms_fst _ _ _ _ _ _ h _ Hm).
  rewrite (batched_nms_of_by argsort) by done.
  unfold batched_nms_of.
  rewrite Hca.
  destruct (valid_boxes_for_nms false boxes scores idxs 0 Hv Hidx)
    as (H4' & Hwf' & Hn' & Hidx').
  rewrite size0_boxes_for_nms by done.
  apply Qlt_bool_iff in Hsmall. rewrite Hsmall.
  set (thr := to_float (cfg_get m "iou_thr" (PyInt 0))) in *.
  destruct (small_path_run px boxes _ scores thr H4' Hwf' Hn') as [dets ->].
  eexists _, _. split; [reflexivity |].
  intros g. rewrite <- per_class_kept by done.
  destruct Hv as (H4 & Hwf & Hn & _).
  rewrite (group_keeps_by_distinct argsort) by (done || lia).
  apply group_keeps_shift; (done || lia).
Qed.

Lemma small_path_keeps_per_group_witness :
  let boxes := mkVar2 4 [[0; 0; 10; 10]; [0; 0; 10; 10]; [1; 1; 10; 10]]%Q in
  let scores := [9 # 10; 8 # 10; 7 # 10]%Q in
  exists dets keep,
    (batched_nms (Jittor.nms_by Jittor.argsort_desc 1) boxes scores
       [0; 1; 0]%Z 0 false [∅]).1 = inr (dets, keep) /\
    forall g,
      filter (in_group [0; 1; 0]%Z g) keep =
      group_keeps_by (Jittor.nms_by Jittor.argsort_desc 1) boxes scores
        [0; 1; 0]%Z (to_float (cfg_get ∅ "iou_thr" (PyInt 0))) g.
Proof.
  intros boxes scores.
  apply (small_path_keeps_per_group Jittor.argsort_desc 1 boxes scores
           [0; 1; 0]%Z 0 false [∅] ∅).
  - exact descending_argsort_desc.
  - vm_compute. discriminate.
  - valid_input_by_computation.
  - reflexivity.
  - reflexivity.
  - distinct_by_computation.
  - unfold non_negative. simpl.
    repeat (constructor; try (vm_compute; discriminate)).
  - exact_offsets_by_computation.
  - reflexivity.
  - vm_compute. discriminate.
  - vm_compute. reflexivity.
Defined.

(** * The examples of the source file *)

(** The example of the docstring of [nms]: three boxes are kept. *)
Example nms_docstring_example :
  let boxes := mkVar2 4
    [[491 # 10; 324 # 10; 510 # 10; 359 # 10];
     [493 # 10; 329 # 10; 510 # 10; 353 # 10];
     [492 # 10; 318 # 10; 510 # 10; 354 # 10];
     [351 # 10; 115 # 10; 391 # 10; 157 # 10];
     [356 # 10; 118 # 10; 393 # 10; 142 # 10];
     [353 # 10; 115 # 10; 399 # 10; 145 # 10];
     [352 # 10; 117 # 10; 397 # 10; 157 # 10]]%Q in
  let scores := [9 # 10; 9 # 10; 5 # 10; 5 # 10; 5 # 10; 4 # 10; 3 # 10]%Q in
  kept (nms (Jittor.nms 1) boxes scores (6 # 10) 0 0 (-1)) = [0; 3; 4].
Proof. vm_compute. reflexivity. Qed.

(** The call at the end of the file: six boxes in two groups, none of
    which is suppressed. *)
Example batched_nms_main_example :
  let boxes := mkVar2 4
    [[4; 3; 5; 3]; [4; 3; 5; 4]; [3; 1; 3; 1]; [3; 1; 3; 1]; [3; 2; 3; 6];
     [3; 3; 3; 5]]%Q in
  let scores := [7 # 10; 6 # 10; 5 # 10; 4 # 10; 3 # 10; 2 # 10]%Q in
  kept (batched_nms (Jittor.nms 1) boxes scores [0; 1; 0; 1; 0; 1]%Z 0 false
          [{[ "split_thr" := PyInt 10000 ]}]).1 = [0; 1; 2; 3; 4; 5].
Proof. vm_compute. reflexivity. Qed.
